(** * The [ae] event loop of my-go-redis ([src/ae.go])

    A shallow embedding of the reactor in [ae.go]: the file-event registry
    (a Go map keyed by [getFeKey]), the timer list (a singly linked list of
    heap-allocated [AeTimeEvent] nodes), the readiness waiter [AeWait], the
    dispatcher [AeProcessEvents] and the driver [AeMain].

    The loop is stateful and talks to the operating system, so every
    operation is a function on a [World]: the [AeEventLoop] structure, the
    heap holding the timer nodes, and the part of the environment the code
    interacts with (the wall clock, the epoll instance).  Callbacks are
    arbitrary Go functions; they are modelled as scripts over the loop's own
    API, named by a [ProcId] so that the registrations stay first order. *)

From stdpp Require Import gmap list sorting.

Local Open Scope Z_scope.

(** ** Machine integers

    Go's [int] and [int64] are 64-bit two's complement on the platforms that
    have epoll in 64-bit mode; arithmetic wraps around silently. *)

Definition wrap64 (z : Z) : Z := (z + 2 ^ 63) `mod` 2 ^ 64 - 2 ^ 63.
Definition wrap32 (z : Z) : Z := (z + 2 ^ 31) `mod` 2 ^ 32 - 2 ^ 31.
Definition uint32 (z : Z) : Z := z `mod` 2 ^ 32.

Definition add64 (a b : Z) : Z := wrap64 (a + b).
Definition sub64 (a b : Z) : Z := wrap64 (a - b).
Definition neg64 (a : Z) : Z := wrap64 (a * -1).

Definition min_int64 : Z := - 2 ^ 63.
Definition max_int64 : Z := 2 ^ 63 - 1.
Definition int64 (z : Z) : Prop := min_int64 ≤ z ≤ max_int64.

(** ** Constants *)

(** [FeType] and [TeType] are named [int] types: any integer inhabits them. *)
Definition AE_READABLE : Z := 1.
Definition AE_WRITABLE : Z := 2.
Definition AE_NORMAL : Z := 1.
Definition AE_ONCE : Z := 2.

(** The values [golang.org/x/sys/unix] gives these names on Linux. *)
Definition EPOLLIN : Z := 1.
Definition EPOLLOUT : Z := 4.
Definition EPOLL_CTL_ADD : Z := 1.
Definition EPOLL_CTL_DEL : Z := 2.
Definition EPOLL_CTL_MOD : Z := 3.

(** ** Data model *)

(** A callback is named; [clientData] is an opaque value handed back to it. *)
Definition ProcId := nat.
Definition ClientData := Z.

(** Address of a heap-allocated [AeTimeEvent]. *)
Definition loc := nat.

(** [AeFileEvent].  The [next] field is never read or written by the code and
    is left out.  A file event is never mutated after [AeCreateFileEvent]
    built it, so a [*AeFileEvent] is modelled by the value it points to; the
    nil pointer is [None]. *)
Record AeFileEvent := mkFileEvent {
  fe_fd : Z;
  fe_mask : Z;
  fileProc : ProcId;
  fe_clientData : ClientData
}.

(** [AeTimeEvent].  Nodes are mutated in place ([when]) and shared between
    the timer list and the slice [AeWait] returns, so they live in a heap
    and are referred to by address.  The [next] pointers are represented by
    the order of [TimeEventHead] below (see [lseg] for the pointers
    themselves). *)
Record AeTimeEvent := mkTimeEvent {
  te_id : Z;
  te_mask : Z;
  when : Z;
  duration : Z;
  timeProc : ProcId;
  te_clientData : ClientData
}.

(** [AeEventLoop].  [FileEvents] is the Go map [map[int]*AeFileEvent]: a key
    may be absent or may hold the nil pointer ([AeDeleteFileEvent] stores
    nil, it does not delete the key).  [TimeEventHead] is the chain of
    nodes reachable from the head pointer through [next], head first: no
    traversal of the chain is interleaved with a callback, and a node that
    left the chain is never walked from again, so the addresses in order
    are all the code can observe of the pointers. *)
Record AeEventLoop := mkEventLoop {
  FileEvents : gmap Z (option AeFileEvent);
  TimeEventHead : list loc;
  epollFd : Z;
  timeEventNextId : Z;
  stop : bool
}.

(** [unix.EpollEvent]: [Events] is a [uint32], [Fd] an [int32]. *)
Record EpollEvent := mkEpollEvent {
  Events : Z;
  Fd : Z
}.

(** One [unix.EpollCtl] call as the kernel receives it. *)
Record EpollCtlCall := mkCtl {
  ctl_op : Z;
  ctl_fd : Z;
  ctl_event : EpollEvent
}.

(** What the dispatcher invoked: a timer callback (the node and the id it
    was called with) or a file callback. *)
Inductive Firing :=
  | FiredTime (l : loc) (id : Z)
  | FiredFile (fe : AeFileEvent).

#[global] Instance AeFileEvent_eq_dec : EqDecision AeFileEvent.
Proof. solve_decision. Defined.
#[global] Instance AeTimeEvent_eq_dec : EqDecision AeTimeEvent.
Proof. solve_decision. Defined.
#[global] Instance EpollEvent_eq_dec : EqDecision EpollEvent.
Proof. solve_decision. Defined.
#[global] Instance EpollCtlCall_eq_dec : EqDecision EpollCtlCall.
Proof. solve_decision. Defined.
#[global] Instance Firing_eq_dec : EqDecision Firing.
Proof. solve_decision. Defined.

(** The state the code runs in.
    - [loop], [heap]: the program's own data.
    - [interest]: the interest list of the epoll instance inside the kernel,
      descriptor to event mask.
    - [ticks], [ctl_log], [wait_log]: how often the clock was read, the
      [EpollCtl] calls issued and the timeouts [EpollWait] was called with.
    - [fired]: the callbacks invoked so far, oldest first. *)
Record World := mkWorld {
  loop : AeEventLoop;
  heap : gmap loc AeTimeEvent;
  interest : gmap Z Z;
  ticks : nat;
  ctl_log : list EpollCtlCall;
  wait_log : list Z;
  fired : list Firing
}.

(** ** Callbacks

    A callback receives the loop and may call its API any number of times,
    looking at the state in between. *)
Inductive ApiCall :=
  | CallCreateFileEvent (fd mask : Z) (proc : ProcId) (clientData : ClientData)
  | CallDeleteFileEvent (fd mask : Z)
  | CallCreateTimeEvent (mask duration : Z) (proc : ProcId) (clientData : ClientData)
  | CallDeleteTimeEvent (id : Z)
  | CallSetStop
  | CallGetMsTime.

Inductive Script :=
  | Return
  | Do (c : ApiCall) (k : Z → Script)
  | Observe (k : World → Script).

(** The environment: the readings of the wall clock, the [EpollCtl] calls
    that fail for a reason outside the interest list (a closed descriptor,
    no memory), what each [EpollWait] reports ([None] is an error), and the
    bodies of the callbacks (first argument: the descriptor or timer id). *)
Record Env := mkEnv {
  wall : nat → Z;
  ctl_fault : nat → bool;
  ready : nat → option (list EpollEvent);
  procs : ProcId → Z → ClientData → Script
}.

(** ** Field updates *)

Definition set_loop (f : AeEventLoop → AeEventLoop) (w : World) : World :=
  mkWorld (f (loop w)) (heap w) (interest w) (ticks w) (ctl_log w)
          (wait_log w) (fired w).

Definition set_FileEvents (m : gmap Z (option AeFileEvent)) (e : AeEventLoop) :=
  mkEventLoop m (TimeEventHead e) (epollFd e) (timeEventNextId e) (stop e).
Definition set_TimeEventHead (h : list loc) (e : AeEventLoop) :=
  mkEventLoop (FileEvents e) h (epollFd e) (timeEventNextId e) (stop e).
Definition set_timeEventNextId (n : Z) (e : AeEventLoop) :=
  mkEventLoop (FileEvents e) (TimeEventHead e) (epollFd e) n (stop e).
Definition set_stop (b : bool) (e : AeEventLoop) :=
  mkEventLoop (FileEvents e) (TimeEventHead e) (epollFd e) (timeEventNextId e) b.

Definition set_heap (h : gmap loc AeTimeEvent) (w : World) : World :=
  mkWorld (loop w) h (interest w) (ticks w) (ctl_log w) (wait_log w) (fired w).
Definition log_fired (f : Firing) (w : World) : World :=
  mkWorld (loop w) (heap w) (interest w) (ticks w) (ctl_log w) (wait_log w)
          (fired w ++ [f]).

(** ** The operating system *)

(** [epoll_ctl(2)] on the interest list: ADD enters a descriptor that is not
    yet there, MOD replaces the event mask of one that is, DEL removes one
    that is; a negative descriptor is never valid.  [None] is an error. *)
Definition kernel_epoll_ctl (k : gmap Z Z) (op fd events : Z) : option (gmap Z Z) :=
  if bool_decide (fd < 0) then None
  else if bool_decide (op = EPOLL_CTL_ADD) then
    match k !! fd with Some _ => None | None => Some (<[fd := events]> k) end
  else if bool_decide (op = EPOLL_CTL_MOD) then
    match k !! fd with Some _ => Some (<[fd := events]> k) | None => None end
  else if bool_decide (op = EPOLL_CTL_DEL) then
    match k !! fd with Some _ => Some (delete fd k) | None => None end
  else None.

(** What ends up in a buffer of 128 [unix.EpollEvent]s: at most 128
    entries, each with a 32-bit mask and a 32-bit descriptor. *)
Definition filled (evs : list EpollEvent) : list EpollEvent :=
  map (λ e, mkEpollEvent (uint32 (Events e)) (wrap32 (Fd e))) (take 128 evs).

Section Loop.
Context (E : Env).

(** [GetMsTime] (and [time.Now().UnixMilli()]): the next reading of the wall
    clock, an [int64]. *)
Definition GetMsTime (w : World) : Z * World :=
  (wrap64 (wall E (ticks w)),
   mkWorld (loop w) (heap w) (interest w) (S (ticks w)) (ctl_log w)
           (wait_log w) (fired w)).

(** [unix.EpollCtl(epollFd, op, fd, &event)]; [true] when [err == nil].  The
    system call takes the descriptor as a C [int]. *)
Definition EpollCtl (op fd : Z) (ev : EpollEvent) (w : World) : bool * World :=
  let call := mkCtl op fd ev in
  let res :=
    if ctl_fault E (length (ctl_log w)) then None
    else kernel_epoll_ctl (interest w) op (wrap32 fd) (Events ev) in
  match res with
  | Some k =>
      (true, mkWorld (loop w) (heap w) k (ticks w) (ctl_log w ++ [call])
                     (wait_log w) (fired w))
  | None =>
      (false, mkWorld (loop w) (heap w) (interest w) (ticks w)
                      (ctl_log w ++ [call]) (wait_log w) (fired w))
  end.

(** [unix.EpollWait(epollFd, events[:], timeout)] with the 128-entry buffer
    of [AeWait]: the entries the kernel filled in, or [None] for an error. *)
Definition EpollWait (timeout : Z) (w : World) : option (list EpollEvent) * World :=
  (filled <$> ready E (length (wait_log w)),
   mkWorld (loop w) (heap w) (interest w) (ticks w) (ctl_log w)
           (wait_log w ++ [timeout]) (fired w)).

(** ** The file-event registry *)

Definition getFeKey (fd mask : Z) : Z :=
  if bool_decide (mask = AE_READABLE) then fd else neg64 fd.

Definition getEpollEvent (mask : Z) : Z :=
  if bool_decide (mask = AE_READABLE) then EPOLLIN else EPOLLOUT.

(** Reading [eventLoop.FileEvents[key]]: nil for an absent key. *)
Definition fe_get (m : gmap Z (option AeFileEvent)) (key : Z) : option AeFileEvent :=
  match m !! key with Some p => p | None => None end.

(** The [op] that [AeCreateFileEvent] picks. *)
Definition create_op (m : gmap Z (option AeFileEvent)) (fd : Z) : Z :=
  if bool_decide (fe_get m (getFeKey fd AE_READABLE) ≠ None
                  ∨ fe_get m (getFeKey fd AE_WRITABLE) ≠ None)
  then EPOLL_CTL_MOD else EPOLL_CTL_ADD.

(** The event both [AeCreateFileEvent] and [AeDeleteFileEvent] pass. *)
Definition ctl_event_for (fd mask : Z) : EpollEvent :=
  mkEpollEvent (getEpollEvent mask) (wrap32 fd).

Definition AeCreateFileEvent (fd mask : Z) (proc : ProcId) (clientData : ClientData)
    (w : World) : World :=
  let op := create_op (FileEvents (loop w)) fd in
  let '(ok, w1) := EpollCtl op fd (ctl_event_for fd mask) w in
  if ok then
    let fe := mkFileEvent fd mask proc clientData in
    set_loop (λ e, set_FileEvents (<[getFeKey fd mask := Some fe]> (FileEvents e)) e) w1
  else w1.

Definition AeDeleteFileEvent (fd mask : Z) (w : World) : World :=
  let w1 :=
    set_loop (λ e, set_FileEvents (<[getFeKey fd mask := None]> (FileEvents e)) e) w in
  snd (EpollCtl EPOLL_CTL_DEL fd (ctl_event_for fd mask) w1).

(** ** The timer list *)

(** A fresh address for a node about to be allocated. *)
Definition alloc (h : gmap loc AeTimeEvent) : loc := fresh (dom h).

(** [AeCreateTimeEvent]: returns the id and inserts the node at the head. *)
Definition AeCreateTimeEvent (mask dur : Z) (proc : ProcId) (clientData : ClientData)
    (w : World) : Z * World :=
  let id := timeEventNextId (loop w) in
  let w1 := set_loop (set_timeEventNextId (add64 id 1)) w in
  let '(now, w2) := GetMsTime w1 in
  let te := mkTimeEvent id mask (add64 now dur) dur proc clientData in
  let l := alloc (heap w2) in
  let w3 := set_heap (<[l := te]> (heap w2)) w2 in
  (id, set_loop (λ e, set_TimeEventHead (l :: TimeEventHead e) e) w3).

(** The scan of [AeDeleteTimeEvent]: the chain without its first node whose
    id is [id] (the [break] stops at the first match). *)
Fixpoint unlink (h : gmap loc AeTimeEvent) (id : Z) (ls : list loc) : list loc :=
  match ls with
  | [] => []
  | l :: rest =>
      match h !! l with
      | Some te =>
          if bool_decide (te_id te = id) then rest else l :: unlink h id rest
      | None => l :: unlink h id rest
      end
  end.

Definition AeDeleteTimeEvent (id : Z) (w : World) : World :=
  set_loop (λ e, set_TimeEventHead (unlink (heap w) id (TimeEventHead e)) e) w.

(** ** Running a callback *)

Definition api_call (c : ApiCall) (w : World) : Z * World :=
  match c with
  | CallCreateFileEvent fd mask proc cd => (0, AeCreateFileEvent fd mask proc cd w)
  | CallDeleteFileEvent fd mask => (0, AeDeleteFileEvent fd mask w)
  | CallCreateTimeEvent mask dur proc cd => AeCreateTimeEvent mask dur proc cd w
  | CallDeleteTimeEvent id => (0, AeDeleteTimeEvent id w)
  | CallSetStop => (0, set_loop (set_stop true) w)
  | CallGetMsTime => GetMsTime w
  end.

Fixpoint run_script (s : Script) (w : World) : World :=
  match s with
  | Return => w
  | Do c k => let '(r, w1) := api_call c w in run_script (k r) w1
  | Observe k => run_script (k w) w
  end.

(** ** The dispatcher *)

(** [te.timeProc(eventLoop, te.id, te.clientData)]. *)
Definition call_timeProc (l : loc) (w : World) : World :=
  match heap w !! l with
  | Some te =>
      run_script (procs E (timeProc te) (te_id te) (te_clientData te))
                 (log_fired (FiredTime l (te_id te)) w)
  | None => w
  end.

(** What [AeProcessEvents] does with a timer once its callback returned. *)
Definition after_timeProc (l : loc) (w : World) : World :=
  match heap w !! l with
  | Some te =>
      if bool_decide (te_mask te = AE_NORMAL) then
        let '(now, w1) := GetMsTime w in
        let te' := mkTimeEvent (te_id te) (te_mask te) (add64 now (duration te))
                               (duration te) (timeProc te) (te_clientData te) in
        set_heap (<[l := te']> (heap w1)) w1
      else AeDeleteTimeEvent (te_id te) w
  | None => w
  end.

Definition process_time_event (l : loc) (w : World) : World :=
  after_timeProc l (call_timeProc l w).

(** [fe.fileProc(eventLoop, fe.fd, fe.clientData)]. *)
Definition call_fileProc (fe : AeFileEvent) (w : World) : World :=
  run_script (procs E (fileProc fe) (fe_fd fe) (fe_clientData fe))
             (log_fired (FiredFile fe) w).

Definition process_file_event (fe : AeFileEvent) (w : World) : World :=
  AeDeleteFileEvent (fe_fd fe) (fe_mask fe) (call_fileProc fe w).

Definition AeProcessEvents (tes : list loc) (fes : list AeFileEvent) (w : World) : World :=
  let w1 := fold_left (λ w te, process_time_event te w) tes w in
  fold_left (λ w fe, process_file_event fe w) fes w1.

(** ** The waiter *)

Definition nearestTime (w : World) : Z * World :=
  let '(now, w1) := GetMsTime w in
  (fold_left
     (λ nearest l,
        match heap w1 !! l with
        | Some te => if bool_decide (when te < nearest) then when te else nearest
        | None => nearest
        end)
     (TimeEventHead (loop w1)) (add64 now 1000),
   w1).

(** The file events one entry of the ready list contributes. *)
Definition collect_file_event (m : gmap Z (option AeFileEvent)) (e : EpollEvent)
    : list AeFileEvent :=
  if bool_decide (Z.land (Events e) EPOLLIN ≠ 0) then
    match fe_get m (getFeKey (Fd e) AE_READABLE) with
    | Some fe => [fe]
    | None => []
    end
  else if bool_decide (Z.land (Events e) EPOLLOUT ≠ 0) then
    match fe_get m (getFeKey (Fd e) AE_WRITABLE) with
    | Some fe => [fe]
    | None => []
    end
  else [].

(** The timers of the chain that are due at [now], head first. *)
Definition due (h : gmap loc AeTimeEvent) (now : Z) (l : loc) : bool :=
  match h !! l with
  | Some te => bool_decide (when te < now)
  | None => false
  end.

(** [AeWait]: the due timers, the ready file events, and whether [err] is
    non-nil. *)
Definition AeWait (w : World) : (list loc * list AeFileEvent * bool) * World :=
  let '(nearest, w1) := nearestTime w in
  let '(now0, w2) := GetMsTime w1 in
  let timeout := sub64 nearest now0 in
  let timeout := if bool_decide (timeout ≤ 0) then 10 else timeout in
  let '(res, w3) := EpollWait timeout w2 in
  match res with
  | None => (([], [], true), w3)
  | Some evs =>
      let fes := concat (map (collect_file_event (FileEvents (loop w3))) evs) in
      let '(now, w4) := GetMsTime w3 in
      let tes := List.filter (due (heap w4) now) (TimeEventHead (loop w4)) in
      ((tes, fes, false), w4)
  end.

(** ** The driver *)

(** One turn of the loop in [AeMain]. *)
Definition AeMain_body (w : World) : World :=
  let '((tes, fes, err), w1) := AeWait w in
  let w2 := if err then set_loop (set_stop true) w1 else w1 in
  AeProcessEvents tes fes w2.

(** [for eventLoop.stop != true { ... }], at most [fuel] turns; [None] when
    the loop is still running after that many. *)
Fixpoint AeMain_loop (fuel : nat) (w : World) : option World :=
  match fuel with
  | O => if stop (loop w) then Some w else None
  | S n => if stop (loop w) then Some w else AeMain_loop n (AeMain_body w)
  end.

Definition AeMain (fuel : nat) (w : World) : option World :=
  AeMain_loop fuel (set_loop (set_stop false) w).

End Loop.

(** ** The chain of [next] pointers

    In the code the timer list is the pointer [TimeEventHead] and the field
    [next] of every node, and [AeCreateTimeEvent] and [AeDeleteTimeEvent]
    rewire those pointers.  [TimeEventHead] above is the list of addresses
    such a chain holds; the definitions here are the pointer manipulations
    themselves, and [ptr_push_refines] and [ptr_delete_refines] below show
    that they do to the chain what [cons] and [unlink] do to the list. *)

(** The nodes [ls] linked through [next] lead from pointer [p] to pointer
    [q]; a chain from the head to nil is the whole timer list. *)
Fixpoint lseg (nx : gmap loc (option loc)) (p q : option loc) (ls : list loc) : Prop :=
  match ls with
  | [] => p = q
  | l :: ls => p = Some l ∧ ∃ next, nx !! l = Some next ∧ lseg nx next q ls
  end.

(** [te.next = eventLoop.TimeEventHead; eventLoop.TimeEventHead = &te]. *)
Definition ptr_push (nx : gmap loc (option loc)) (head : option loc) (l : loc)
    : gmap loc (option loc) * option loc :=
  (<[l := head]> nx, Some l).

(** The loop of [AeDeleteTimeEvent] with its variables [prev] and [te]; the
    result is the [next] fields and the head pointer.  [fuel] bounds the
    number of nodes visited. *)
Fixpoint ptr_delete (fuel : nat) (h : gmap loc AeTimeEvent) (id : Z)
    (nx : gmap loc (option loc)) (head prev te : option loc)
    : gmap loc (option loc) * option loc :=
  match fuel with
  | O => (nx, head)
  | S n =>
      match te with
      | None => (nx, head)
      | Some l =>
          let next := default None (nx !! l) in
          let hit :=
            match h !! l with
            | Some node => bool_decide (te_id node = id)
            | None => false
            end in
          if hit then
            let '(nx1, head1) :=
              match prev with
              | None => (nx, next)
              | Some p => (<[p := next]> nx, head)
              end in
            (<[l := None]> nx1, head1)
          else ptr_delete n h id nx head (Some l) next
      end
  end.

(** [AeCreateEventLoop], given what [unix.EpollCreate1] returned. *)
Definition AeCreateEventLoop (epoll_create1 : option Z) : option AeEventLoop :=
  match epoll_create1 with
  | None => None
  | Some epfd => Some (mkEventLoop ∅ [] epfd 1 false)
  end.

(** A world in which [loop] was just created. *)
Definition new_world (e : AeEventLoop) : World :=
  mkWorld e ∅ ∅ 0%nat [] [] [].

(** ** Properties of states

    The predicates the theorems below are stated with. *)

(** The two directions of a descriptor: [AE_READABLE], or anything else
    (which [getFeKey] and [getEpollEvent] treat as writable). *)
Definition other_direction (mask mask' : Z) : Prop :=
  (mask = AE_READABLE ∧ mask' ≠ AE_READABLE)
  ∨ (mask ≠ AE_READABLE ∧ mask' = AE_READABLE).

(** The fields of a node that are written once, at allocation. *)
Definition same_identity (te te' : AeTimeEvent) : Prop :=
  te_id te' = te_id te ∧ te_mask te' = te_mask te ∧ duration te' = duration te
  ∧ timeProc te' = timeProc te ∧ te_clientData te' = te_clientData te.

(** [h'] still has every node of [h], with the same identity. *)
Definition heap_extends (h h' : gmap loc AeTimeEvent) : Prop :=
  ∀ l te, h !! l = Some te → ∃ te', h' !! l = Some te' ∧ same_identity te te'.

(** Every entry of the registry sits under the key of its own descriptor
    and direction. *)
Definition keys_ok (m : gmap Z (option AeFileEvent)) : Prop :=
  ∀ k fe, fe_get m k = Some fe → getFeKey (fe_fd fe) (fe_mask fe) = k.

(** The footprint of a step from [w] to [w']. *)
Record frame (w w' : World) : Prop := mkFrame {
  frame_fired : fired w' = fired w;
  frame_heap : heap_extends (heap w) (heap w');
  frame_keys : keys_ok (FileEvents (loop w)) → keys_ok (FileEvents (loop w'))
}.

(** A registry as registrations that the kernel accepted leave it: every
    entry under its own key, for a descriptor that is a non-negative
    [int]. *)
Definition registry_wf (m : gmap Z (option AeFileEvent)) : Prop :=
  keys_ok m ∧ ∀ k fe, fe_get m k = Some fe → 0 ≤ fe_fd fe ≤ max_int64.

(** The id of the node at an address. *)
Definition id_at (h : gmap loc AeTimeEvent) (l : loc) : Z :=
  match h !! l with
  | Some te => te_id te
  | None => 0
  end.

(** [l1] was registered after [l2]: ids are handed out in increasing order. *)
Definition newer (h : gmap loc AeTimeEvent) (l1 l2 : loc) : Prop :=
  id_at h l2 < id_at h l1.

(** The shape of the timer list: its nodes are allocated, every id ever
    handed out is below the counter and names one node, and along the chain
    the ids decrease, the node registered last being the head. *)
Record timers_ok (w : World) : Prop := mkTimersOk {
  ok_alloc : Forall (λ l, is_Some (heap w !! l)) (TimeEventHead (loop w));
  ok_below : ∀ l te, heap w !! l = Some te → te_id te < timeEventNextId (loop w);
  ok_inj : ∀ l1 l2 te1 te2,
      heap w !! l1 = Some te1 → heap w !! l2 = Some te2 →
      te_id te1 = te_id te2 → l1 = l2;
  ok_sorted : StronglySorted (newer (heap w)) (TimeEventHead (loop w))
}.

(** The record a timer's dispatch leaves in [fired]. *)
Definition firing_of (h : gmap loc AeTimeEvent) (l : loc) : list Firing :=
  match h !! l with
  | Some te => [FiredTime l (te_id te)]
  | None => []
  end.


(** The deadlines of the timers in the chain, head first. *)
Definition deadlines (w : World) : list Z :=
  omap (λ l, when <$> heap w !! l) (TimeEventHead (loop w)).

(** ** The specification's nearest deadline *)


(** ** Environments and worlds

    Concrete environments and states on which the theorems are
    instantiated. *)

(** A quiet environment: the clock advances by ten milliseconds per reading,
    no system call fails, nothing is ever ready, callbacks do nothing. *)
Definition quiet : Env :=
  mkEnv (λ n, 1000 + 10 * Z.of_nat n) (λ _, false) (λ _, Some []) (λ _ _ _, Return).

(** A loop fresh from [AeCreateEventLoop], [unix.EpollCreate1] having
    returned descriptor 3. *)
Definition fresh_world : World :=
  match AeCreateEventLoop (Some 3) with
  | Some e => new_world e
  | None => new_world (mkEventLoop ∅ [] 0 1 false)
  end.

(** An environment in which every [EpollCtl] call fails. *)
Definition failing_ctl : Env :=
  mkEnv (wall quiet) (λ _, true) (ready quiet) (procs quiet).

(** A world with a Readable registration on descriptor 5. *)
Definition world_r5 : World :=
  AeCreateFileEvent quiet 5 AE_READABLE 1%nat 10 fresh_world.

(** An environment in which [EpollWait] always fails. *)
Definition failing_wait : Env :=
  mkEnv (wall quiet) (ctl_fault quiet) (λ _, None) (procs quiet).

(** A world with a one-shot timer that is due as soon as the clock is read
    again, and a Readable registration on descriptor 5. *)
Definition world_timer_r5 : World :=
  snd (AeCreateTimeEvent quiet AE_ONCE 0 1%nat 10 world_r5).

(** A callback that unregisters timer 1 and one that unregisters the
    Readable event of descriptor 6; descriptors 5 and 6 are reported
    readable. *)
Definition cancelling : Env :=
  mkEnv (wall quiet) (ctl_fault quiet)
        (λ _, Some [mkEpollEvent EPOLLIN 5; mkEpollEvent EPOLLIN 6])
        (λ p _ _, match p with
                  | 1%nat => Do (CallDeleteTimeEvent 1) (λ _, Return)
                  | 2%nat => Do (CallDeleteFileEvent 6 AE_READABLE) (λ _, Return)
                  | _ => Return
                  end).

(** Timer 1 (node 0) with a callback that does nothing, timer 2 (node 1)
    whose callback unregisters timer 1; descriptor 5 whose callback
    unregisters descriptor 6, descriptor 6 with a callback that does
    nothing. *)
Definition cancel_world : World :=
  let w := snd (AeCreateTimeEvent cancelling AE_ONCE 0 0%nat 0 fresh_world) in
  let w := snd (AeCreateTimeEvent cancelling AE_ONCE 0 1%nat 0 w) in
  let w := AeCreateFileEvent cancelling 5 AE_READABLE 2%nat 0 w in
  AeCreateFileEvent cancelling 6 AE_READABLE 0%nat 0 w.

(** Descriptor 5 is reported readable in every poll, and its callback
    registers the pair again before it returns. *)
Definition insistent : Env :=
  mkEnv (wall quiet) (ctl_fault quiet)
        (λ _, Some [mkEpollEvent EPOLLIN 5])
        (λ p _ _, match p with
                  | 1%nat => Do (CallCreateFileEvent 5 AE_READABLE 1%nat 10) (λ _, Return)
                  | _ => Return
                  end).


(** Timer 1 is one-shot, timer 2 recurring with a period of 50ms; no time
    has passed since. *)
Definition two_timers : World :=
  let w := snd (AeCreateTimeEvent quiet AE_ONCE 0 1%nat 10 fresh_world) in
  snd (AeCreateTimeEvent quiet AE_NORMAL 50 2%nat 20 w).

(** Three timers registered one after the other, all of them due at the
    next scan; their callbacks do nothing. *)
Definition three_timers : World :=
  let w := snd (AeCreateTimeEvent quiet AE_ONCE 0 0%nat 0 fresh_world) in
  let w := snd (AeCreateTimeEvent quiet AE_NORMAL 5 0%nat 0 w) in
  snd (AeCreateTimeEvent quiet AE_ONCE 0 0%nat 0 w).

(** ** Sequences of calls *)

(** The arguments of one [AeCreateTimeEvent] call. *)
Record TimerRequest := mkTimerRequest {
  req_mask : Z;
  req_duration : Z;
  req_proc : ProcId;
  req_clientData : ClientData
}.

(** [AeCreateTimeEvent] called once per request, in order, and the ids the
    calls returned. *)
Fixpoint register_timers (E : Env) (reqs : list TimerRequest) (w : World)
    : list Z * World :=
  match reqs with
  | [] => ([], w)
  | r :: reqs =>
      let '(id, w1) :=
        AeCreateTimeEvent E (req_mask r) (req_duration r) (req_proc r)
                          (req_clientData r) w in
      let '(ids, w2) := register_timers E reqs w1 in
      (id :: ids, w2)
  end.

(** The state after [n] turns of the loop in [AeMain]. *)
Fixpoint turns (E : Env) (n : nat) (w : World) : World :=
  match n with
  | O => w
  | S n => turns E n (AeMain_body E w)
  end.

(** One more flag of [golang.org/x/sys/unix]: the kernel reports a hang-up
    whether or not it was asked for. *)
Definition EPOLLHUP : Z := 16.

(** Descriptor 5 registered for both directions. *)
Definition world_rw5 : World :=
  AeCreateFileEvent quiet 5 AE_WRITABLE 2%nat 20 world_r5.

(** Descriptor 5 registered for both directions, Writable unregistered
    since. *)
Definition world_rw5_less_w : World :=
  AeDeleteFileEvent quiet 5 AE_WRITABLE world_rw5.

(** Descriptor 5 is reported with a hang-up and nothing else. *)
Definition hangup_only : Env :=
  mkEnv (wall quiet) (ctl_fault quiet)
        (λ _, Some [mkEpollEvent EPOLLHUP 5]) (procs quiet).

(** The clock stands still at 1000, nothing is ever ready, callbacks do
    nothing. *)
Definition frozen : Env :=
  mkEnv (λ _, 1000) (ctl_fault quiet) (ready quiet) (procs quiet).

(** * Properties *)

(** ** Machine integers *)

Lemma wrap64_range z : int64 (wrap64 z).
Proof.
  unfold int64, wrap64, min_int64, max_int64.
  pose proof (Z.mod_pos_bound (z + 2 ^ 63) (2 ^ 64)). lia.
Qed.

Lemma wrap64_id z : int64 z → wrap64 z = z.
Proof.
  unfold int64, wrap64, min_int64, max_int64. intros Hz.
  rewrite Z.mod_small; lia.
Qed.

Lemma wrap64_le z : min_int64 ≤ z → wrap64 z ≤ z.
Proof.
  unfold wrap64, min_int64. intros Hz.
  pose proof (Z.mod_le (z + 2 ^ 63) (2 ^ 64)). lia.
Qed.

(** Negation has two fixed points among the 64-bit integers. *)
Lemma neg64_fixed fd : int64 fd → neg64 fd = fd → fd = 0 ∨ fd = min_int64.
Proof.
  intros Hfd Hneg. destruct (decide (fd = min_int64)) as [|Hmin]; [by right|].
  left. unfold neg64 in Hneg. rewrite wrap64_id in Hneg.
  - lia.
  - unfold int64, min_int64, max_int64 in *. lia.
Qed.

(** ** The file-event registry *)

Lemma getFeKey_other fd mask mask' :
  int64 fd → fd ≠ 0 → fd ≠ min_int64 → other_direction mask mask' →
  getFeKey fd mask ≠ getFeKey fd mask'.
Proof.
  intros Hfd H0 Hmin Hdir Heq. unfold getFeKey in Heq.
  assert (neg64 fd = fd) as Hfix.
  { destruct Hdir as [[Hm Hm']|[Hm Hm']];
      repeat case_bool_decide; congruence. }
  destruct (neg64_fixed fd Hfd Hfix); congruence.
Qed.

Section Registry.
Context (E : Env).

Lemma EpollCtl_loop op fd ev w : loop (snd (EpollCtl E op fd ev w)) = loop w.
Proof. unfold EpollCtl. by repeat case_match. Qed.

Lemma EpollCtl_heap op fd ev w : heap (snd (EpollCtl E op fd ev w)) = heap w.
Proof. unfold EpollCtl. by repeat case_match. Qed.

Lemma EpollCtl_fired op fd ev w : fired (snd (EpollCtl E op fd ev w)) = fired w.
Proof. unfold EpollCtl. by repeat case_match. Qed.

Lemma EpollCtl_ticks op fd ev w : ticks (snd (EpollCtl E op fd ev w)) = ticks w.
Proof. unfold EpollCtl. by repeat case_match. Qed.

Lemma EpollCtl_wait_log op fd ev w :
  wait_log (snd (EpollCtl E op fd ev w)) = wait_log w.
Proof. unfold EpollCtl. by repeat case_match. Qed.

Lemma EpollCtl_ctl_log op fd ev w :
  ctl_log (snd (EpollCtl E op fd ev w)) = ctl_log w ++ [mkCtl op fd ev].
Proof. unfold EpollCtl. by repeat case_match. Qed.

(** What a registration leaves in the registry: the new entry under its
    key when the kernel accepted the call, nothing otherwise. *)
Lemma AeCreateFileEvent_FileEvents fd mask proc cd w :
  FileEvents (loop (AeCreateFileEvent E fd mask proc cd w)) =
    if fst (EpollCtl E (create_op (FileEvents (loop w)) fd) fd (ctl_event_for fd mask) w)
    then <[getFeKey fd mask := Some (mkFileEvent fd mask proc cd)]> (FileEvents (loop w))
    else FileEvents (loop w).
Proof.
  unfold AeCreateFileEvent.
  pose proof (EpollCtl_loop (create_op (FileEvents (loop w)) fd) fd
                (ctl_event_for fd mask) w) as Hl.
  destruct (EpollCtl E _ fd _ w) as [[] w1]; simpl in *; by rewrite Hl.
Qed.

Lemma AeDeleteFileEvent_FileEvents fd mask w :
  FileEvents (loop (AeDeleteFileEvent E fd mask w)) =
    <[getFeKey fd mask := None]> (FileEvents (loop w)).
Proof. unfold AeDeleteFileEvent. by rewrite EpollCtl_loop. Qed.

Lemma fe_get_insert_ne m k k' v : k ≠ k' → fe_get (<[k := v]> m) k' = fe_get m k'.
Proof. intros Hk. unfold fe_get. by rewrite lookup_insert_ne. Qed.

Lemma fe_get_insert_eq m k v : fe_get (<[k := v]> m) k = v.
Proof. unfold fe_get. by rewrite lookup_insert_eq. Qed.

(** Away from the descriptors [0] and [min_int64], registering or
    unregistering one direction leaves the other direction's entry alone. *)
Lemma registrations_independent fd mask mask' proc cd w :
  int64 fd → fd ≠ 0 → fd ≠ min_int64 → other_direction mask mask' →
  fe_get (FileEvents (loop (AeCreateFileEvent E fd mask proc cd w))) (getFeKey fd mask')
    = fe_get (FileEvents (loop w)) (getFeKey fd mask')
  ∧ fe_get (FileEvents (loop (AeDeleteFileEvent E fd mask w))) (getFeKey fd mask')
    = fe_get (FileEvents (loop w)) (getFeKey fd mask').
Proof.
  intros Hfd H0 Hmin Hdir.
  pose proof (getFeKey_other fd mask mask' Hfd H0 Hmin Hdir) as Hk. split.
  - rewrite AeCreateFileEvent_FileEvents. case_match; [|done].
    by apply fe_get_insert_ne.
  - rewrite AeDeleteFileEvent_FileEvents. by apply fe_get_insert_ne.
Qed.

End Registry.

(** C1, at descriptor 0.  [getFeKey] gives both directions of descriptor 0
    the key 0, so the two registrations are one entry: registering Writable
    replaces the Readable registration, and unregistering Writable removes
    the Readable registration. *)
Theorem C1_descriptor_zero_shares_entry :
  let r := mkFileEvent 0 AE_READABLE 1%nat 10 in
  let wr := mkFileEvent 0 AE_WRITABLE 2%nat 20 in
  let w1 := AeCreateFileEvent quiet 0 AE_READABLE 1%nat 10 fresh_world in
  let w2 := AeCreateFileEvent quiet 0 AE_WRITABLE 2%nat 20 w1 in
  let w3 := AeDeleteFileEvent quiet 0 AE_WRITABLE w1 in
  getFeKey 0 AE_READABLE = getFeKey 0 AE_WRITABLE
  ∧ fe_get (FileEvents (loop w1)) (getFeKey 0 AE_READABLE) = Some r
  ∧ fe_get (FileEvents (loop w2)) (getFeKey 0 AE_READABLE) = Some wr
  ∧ fe_get (FileEvents (loop w3)) (getFeKey 0 AE_READABLE) = None.
Proof. vm_compute. done. Qed.

(** ** Registration and the kernel *)

Section Registration.
Context (E : Env).

(** [AeCreateFileEvent] issues exactly one [EpollCtl] call: MOD when the
    registry holds an entry under either key of the descriptor, ADD
    otherwise, with the flag of the direction being registered and no
    other. *)
Lemma AeCreateFileEvent_ctl_call fd mask proc cd w :
  ctl_log (AeCreateFileEvent E fd mask proc cd w) =
    ctl_log w ++ [mkCtl (create_op (FileEvents (loop w)) fd) fd
                        (mkEpollEvent (getEpollEvent mask) (wrap32 fd))].
Proof.
  unfold AeCreateFileEvent.
  pose proof (EpollCtl_ctl_log E (create_op (FileEvents (loop w)) fd) fd
                (ctl_event_for fd mask) w) as Hl.
  destruct (EpollCtl E _ fd _ w) as [[] w1]; simpl in *; by rewrite Hl.
Qed.

Lemma create_op_spec m fd :
  (create_op m fd = EPOLL_CTL_MOD ↔
     fe_get m (getFeKey fd AE_READABLE) ≠ None
     ∨ fe_get m (getFeKey fd AE_WRITABLE) ≠ None)
  ∧ (create_op m fd = EPOLL_CTL_ADD ↔
       fe_get m (getFeKey fd AE_READABLE) = None
       ∧ fe_get m (getFeKey fd AE_WRITABLE) = None).
Proof.
  unfold create_op. case_bool_decide as H; split; split; try done.
  - intros [H1 H2]. destruct H; congruence.
  - intros _. split.
    + destruct (fe_get m (getFeKey fd AE_READABLE)) eqn:H1; [|done].
      exfalso. apply H. by left.
    + destruct (fe_get m (getFeKey fd AE_WRITABLE)) eqn:H2; [|done].
      exfalso. apply H. by right.
Qed.

(** When the kernel accepts the call, the mask it keeps for the descriptor
    afterwards is the one passed in: the flag of the new direction alone. *)
Lemma AeCreateFileEvent_interest fd mask proc cd w :
  fst (EpollCtl E (create_op (FileEvents (loop w)) fd) fd (ctl_event_for fd mask) w) = true →
  interest (AeCreateFileEvent E fd mask proc cd w) !! wrap32 fd
    = Some (getEpollEvent mask).
Proof.
  unfold AeCreateFileEvent.
  assert (create_op (FileEvents (loop w)) fd = EPOLL_CTL_ADD
          ∨ create_op (FileEvents (loop w)) fd = EPOLL_CTL_MOD) as [-> | ->]
    by (unfold create_op; case_bool_decide; auto).
  all: unfold EpollCtl, kernel_epoll_ctl; simpl.
  all: repeat case_match; simplify_eq/=; try done; intros _.
  all: by rewrite lookup_insert_eq.
Qed.

(** C5.  When the [EpollCtl] call of a registration fails, the call returns
    (it has no result and cannot fail) with the loop, and so the registry,
    exactly as before; no timer node changed and no callback ran. *)
Theorem C5_failed_registration_changes_nothing fd mask proc cd w :
  fst (EpollCtl E (create_op (FileEvents (loop w)) fd) fd (ctl_event_for fd mask) w) = false →
  let w' := AeCreateFileEvent E fd mask proc cd w in
  FileEvents (loop w') = FileEvents (loop w)
  ∧ loop w' = loop w ∧ heap w' = heap w ∧ fired w' = fired w.
Proof.
  intros Hfail. unfold AeCreateFileEvent.
  pose proof (EpollCtl_loop E (create_op (FileEvents (loop w)) fd) fd
                (ctl_event_for fd mask) w) as Hl.
  pose proof (EpollCtl_heap E (create_op (FileEvents (loop w)) fd) fd
                (ctl_event_for fd mask) w) as Hh.
  pose proof (EpollCtl_fired E (create_op (FileEvents (loop w)) fd) fd
                (ctl_event_for fd mask) w) as Hf.
  destruct (EpollCtl E _ fd _ w) as [ok w1]. simpl in *. subst ok.
  by rewrite Hl, Hh, Hf.
Qed.

End Registration.

Lemma C5_failed_registration_witness :
  fst (EpollCtl failing_ctl (create_op (FileEvents (loop world_r5)) 5) 5
         (ctl_event_for 5 AE_WRITABLE) world_r5) = false
  ∧ FileEvents (loop (AeCreateFileEvent failing_ctl 5 AE_WRITABLE 2%nat 20 world_r5))
    = FileEvents (loop world_r5).
Proof.
  split; [reflexivity|].
  apply (C5_failed_registration_changes_nothing failing_ctl 5 AE_WRITABLE 2%nat 20
           world_r5).
  reflexivity.
Defined.

(** C3, registering Writable on a descriptor that has a Readable
    registration.  The call is an EPOLL_CTL_MOD carrying EPOLLOUT alone, so
    the kernel's interest in the descriptor becomes EPOLLOUT: the Readable
    direction, still in the registry, is no longer in the interest set. *)
Theorem C3_modify_replaces_interest :
  let w2 := AeCreateFileEvent quiet 5 AE_WRITABLE 2%nat 20 world_r5 in
  ctl_log world_r5 = [mkCtl EPOLL_CTL_ADD 5 (mkEpollEvent EPOLLIN 5)]
  ∧ interest world_r5 !! 5 = Some EPOLLIN
  ∧ ctl_log w2 = [mkCtl EPOLL_CTL_ADD 5 (mkEpollEvent EPOLLIN 5);
                  mkCtl EPOLL_CTL_MOD 5 (mkEpollEvent EPOLLOUT 5)]
  ∧ interest w2 !! 5 = Some EPOLLOUT
  ∧ Z.land EPOLLOUT EPOLLIN = 0
  ∧ fe_get (FileEvents (loop w2)) (getFeKey 5 AE_READABLE)
    = Some (mkFileEvent 5 AE_READABLE 1%nat 10)
  ∧ fe_get (FileEvents (loop w2)) (getFeKey 5 AE_WRITABLE)
    = Some (mkFileEvent 5 AE_WRITABLE 2%nat 20).
Proof. vm_compute. done. Qed.

(** ** What callbacks cannot do

    A callback acts on the loop through its API only.  Whatever it does, it
    does not invoke other callbacks itself, it does not free or re-identify a
    timer node, and it keeps every registry entry under the key of its own
    descriptor and direction. *)

Lemma heap_extends_refl h : heap_extends h h.
Proof. intros l te Hl. exists te. by repeat split. Qed.

Lemma heap_extends_trans h1 h2 h3 :
  heap_extends h1 h2 → heap_extends h2 h3 → heap_extends h1 h3.
Proof.
  intros H12 H23 l te Hl.
  destruct (H12 l te Hl) as (te2 & Hl2 & Hid2).
  destruct (H23 l te2 Hl2) as (te3 & Hl3 & Hid3).
  exists te3. split; [done|].
  destruct Hid2 as (?&?&?&?&?), Hid3 as (?&?&?&?&?).
  repeat split; congruence.
Qed.

Lemma alloc_fresh (h : gmap loc AeTimeEvent) : h !! alloc h = None.
Proof. apply not_elem_of_dom. unfold alloc. apply is_fresh. Qed.

Lemma keys_ok_empty : keys_ok ∅.
Proof. intros k fe. unfold fe_get. by rewrite lookup_empty. Qed.

Lemma keys_ok_insert_None m k : keys_ok m → keys_ok (<[k := None]> m).
Proof.
  intros Hm k' fe. destruct (decide (k = k')) as [<-|Hne].
  - by rewrite fe_get_insert_eq.
  - rewrite fe_get_insert_ne by done. apply Hm.
Qed.

Lemma keys_ok_insert_Some m fe :
  keys_ok m → keys_ok (<[getFeKey (fe_fd fe) (fe_mask fe) := Some fe]> m).
Proof.
  intros Hm k' fe'.
  destruct (decide (getFeKey (fe_fd fe) (fe_mask fe) = k')) as [<-|Hne].
  - rewrite fe_get_insert_eq. by intros [= <-].
  - rewrite fe_get_insert_ne by done. apply Hm.
Qed.

Section Frames.
Context (E : Env).

Lemma frame_refl w : frame w w.
Proof. split; [done | apply heap_extends_refl | done]. Qed.

Lemma frame_trans w1 w2 w3 : frame w1 w2 → frame w2 w3 → frame w1 w3.
Proof.
  intros [F1 H1 K1] [F2 H2 K2]. split.
  - congruence.
  - by eapply heap_extends_trans.
  - auto.
Qed.

Lemma frame_GetMsTime w : frame w (snd (GetMsTime E w)).
Proof. split; [done | apply heap_extends_refl | done]. Qed.

Lemma frame_EpollCtl op fd ev w : frame w (snd (EpollCtl E op fd ev w)).
Proof.
  split.
  - apply EpollCtl_fired.
  - rewrite EpollCtl_heap. apply heap_extends_refl.
  - by rewrite EpollCtl_loop.
Qed.

Lemma frame_AeCreateFileEvent fd mask proc cd w :
  frame w (AeCreateFileEvent E fd mask proc cd w).
Proof.
  split.
  - unfold AeCreateFileEvent.
    pose proof (EpollCtl_fired E (create_op (FileEvents (loop w)) fd) fd
                  (ctl_event_for fd mask) w).
    by destruct (EpollCtl E _ fd _ w) as [[] w1].
  - unfold AeCreateFileEvent.
    pose proof (EpollCtl_heap E (create_op (FileEvents (loop w)) fd) fd
                  (ctl_event_for fd mask) w) as Hh.
    destruct (EpollCtl E _ fd _ w) as [[] w1]; simpl in *; rewrite Hh;
      apply heap_extends_refl.
  - intros Hk. rewrite AeCreateFileEvent_FileEvents. case_match; [|done].
    by apply (keys_ok_insert_Some _ (mkFileEvent fd mask proc cd)).
Qed.

Lemma frame_AeDeleteFileEvent fd mask w : frame w (AeDeleteFileEvent E fd mask w).
Proof.
  split.
  - unfold AeDeleteFileEvent. by rewrite EpollCtl_fired.
  - unfold AeDeleteFileEvent. rewrite EpollCtl_heap. apply heap_extends_refl.
  - intros Hk. rewrite AeDeleteFileEvent_FileEvents. by apply keys_ok_insert_None.
Qed.

Lemma frame_AeCreateTimeEvent mask dur proc cd w :
  frame w (snd (AeCreateTimeEvent E mask dur proc cd w)).
Proof.
  split; [done | | done].
  intros l te Hl. simpl. exists te. split; [|by repeat split].
  rewrite lookup_insert_ne; [done|].
  intros <-. by rewrite alloc_fresh in Hl.
Qed.

Lemma frame_AeDeleteTimeEvent id w : frame w (AeDeleteTimeEvent id w).
Proof. split; [done | apply heap_extends_refl | done]. Qed.

Lemma frame_api_call c w : frame w (snd (api_call E c w)).
Proof.
  destruct c; simpl.
  - apply frame_AeCreateFileEvent.
  - apply frame_AeDeleteFileEvent.
  - apply frame_AeCreateTimeEvent.
  - apply frame_AeDeleteTimeEvent.
  - split; [done | apply heap_extends_refl | done].
  - apply frame_GetMsTime.
Qed.

Lemma frame_run_script s w : frame w (run_script E s w).
Proof.
  revert w. induction s as [|c k IH|k IH]; intros w; simpl.
  - apply frame_refl.
  - pose proof (frame_api_call c w) as Hc.
    destruct (api_call E c w) as [r w1]. simpl in Hc.
    eapply frame_trans; [exact Hc | apply IH].
  - apply IH.
Qed.

End Frames.

(** ** The dispatcher, one event at a time *)

Lemma firing_of_extends h h' l :
  heap_extends h h' → is_Some (h !! l) → firing_of h' l = firing_of h l.
Proof.
  intros Hext [te Hl]. destruct (Hext l te Hl) as (te' & Hl' & Hid & _).
  unfold firing_of. by rewrite Hl, Hl', Hid.
Qed.

Lemma firings_extend h h' ls :
  heap_extends h h' → Forall (λ l, is_Some (h !! l)) ls →
  flat_map (firing_of h') ls = flat_map (firing_of h) ls.
Proof.
  intros Hext. induction 1 as [|l ls Hl _ IH]; simpl; [done|].
  by rewrite IH, (firing_of_extends h h' l).
Qed.

Section Dispatch.
Context (E : Env).

Lemma call_timeProc_fired l w :
  fired (call_timeProc E l w) = fired w ++ firing_of (heap w) l.
Proof.
  unfold call_timeProc, firing_of. destruct (heap w !! l) as [te|].
  - by rewrite (frame_fired _ _ (frame_run_script E _ _)).
  - by rewrite app_nil_r.
Qed.

Lemma call_timeProc_frame l w :
  heap_extends (heap w) (heap (call_timeProc E l w))
  ∧ (keys_ok (FileEvents (loop w)) → keys_ok (FileEvents (loop (call_timeProc E l w)))).
Proof.
  unfold call_timeProc. destruct (heap w !! l) as [te|].
  - destruct (frame_run_script E
                (procs E (timeProc te) (te_id te) (te_clientData te))
                (log_fired (FiredTime l (te_id te)) w)) as [_ Hh Hk].
    by split.
  - split; [apply heap_extends_refl | done].
Qed.

Lemma after_timeProc_frame l w : frame w (after_timeProc E l w).
Proof.
  unfold after_timeProc. destruct (heap w !! l) as [te|] eqn:Hl.
  - case_bool_decide.
    + split; [done | | done].
      intros l' te' Hl'. simpl. destruct (decide (l = l')) as [<-|Hne].
      * rewrite lookup_insert_eq. eexists. split; [done|].
        rewrite Hl in Hl'. injection Hl' as <-. by repeat split.
      * rewrite lookup_insert_ne by done. exists te'. by repeat split.
    + apply frame_AeDeleteTimeEvent.
  - apply frame_refl.
Qed.

Lemma process_time_event_fired l w :
  fired (process_time_event E l w) = fired w ++ firing_of (heap w) l.
Proof.
  unfold process_time_event.
  rewrite (frame_fired _ _ (after_timeProc_frame _ _)).
  apply call_timeProc_fired.
Qed.

Lemma process_time_event_frame l w :
  heap_extends (heap w) (heap (process_time_event E l w))
  ∧ (keys_ok (FileEvents (loop w)) →
     keys_ok (FileEvents (loop (process_time_event E l w)))).
Proof.
  unfold process_time_event.
  destruct (call_timeProc_frame l w) as [Hh Hk].
  destruct (after_timeProc_frame l (call_timeProc E l w)) as [_ Hh' Hk'].
  split; [by eapply heap_extends_trans | auto].
Qed.

Lemma call_fileProc_fired fe w :
  fired (call_fileProc E fe w) = fired w ++ [FiredFile fe].
Proof. unfold call_fileProc. by rewrite (frame_fired _ _ (frame_run_script E _ _)). Qed.

Lemma process_file_event_fired fe w :
  fired (process_file_event E fe w) = fired w ++ [FiredFile fe].
Proof.
  unfold process_file_event.
  rewrite (frame_fired _ _ (frame_AeDeleteFileEvent E _ _ _)).
  apply call_fileProc_fired.
Qed.

Lemma process_file_event_keys fe w :
  keys_ok (FileEvents (loop w)) →
  keys_ok (FileEvents (loop (process_file_event E fe w))).
Proof.
  intros Hk. unfold process_file_event, call_fileProc.
  apply (frame_keys _ _ (frame_AeDeleteFileEvent E _ _ _)).
  by apply (frame_keys _ _ (frame_run_script E _ _)).
Qed.

(** The timers of a batch fire in the order of the slice, each once. *)
Lemma process_time_events_fired tes w :
  Forall (λ l, is_Some (heap w !! l)) tes →
  let w' := fold_left (λ w te, process_time_event E te w) tes w in
  fired w' = fired w ++ flat_map (firing_of (heap w)) tes
  ∧ heap_extends (heap w) (heap w')
  ∧ (keys_ok (FileEvents (loop w)) → keys_ok (FileEvents (loop w'))).
Proof.
  revert w. induction tes as [|l tes IH]; intros w Hall; simpl.
  - rewrite app_nil_r. split; [done|]. split; [apply heap_extends_refl | done].
  - apply Forall_cons in Hall as [Hl Hall].
    destruct (process_time_event_frame l w) as [Hh Hk].
    assert (Forall (λ l0, is_Some (heap (process_time_event E l w) !! l0)) tes)
      as Hall'.
    { eapply Forall_impl; [exact Hall|]. intros l0 [te0 Hl0].
      destruct (Hh l0 te0 Hl0) as (te' & -> & _). by eexists. }
    destruct (IH _ Hall') as (Hf & Hh' & Hk').
    split; [|split].
    + rewrite Hf, process_time_event_fired, <- app_assoc. f_equal. f_equal.
      by apply firings_extend.
    + by eapply heap_extends_trans.
    + auto.
Qed.

Lemma process_file_events_fired fes w :
  let w' := fold_left (λ w fe, process_file_event E fe w) fes w in
  fired w' = fired w ++ map FiredFile fes.
Proof.
  revert w. induction fes as [|fe fes IH]; intros w; simpl.
  - by rewrite app_nil_r.
  - simpl in IH. rewrite IH, process_file_event_fired, <- app_assoc. done.
Qed.

(** The callbacks one call of [AeProcessEvents] invokes: the timers of
    [tes] in order, then the file events of [fes] in order, and no other. *)
Lemma AeProcessEvents_fired tes fes w :
  Forall (λ l, is_Some (heap w !! l)) tes →
  fired (AeProcessEvents E tes fes w)
    = fired w ++ flat_map (firing_of (heap w)) tes ++ map FiredFile fes.
Proof.
  intros Hall. unfold AeProcessEvents.
  rewrite process_file_events_fired.
  destruct (process_time_events_fired tes w Hall) as (-> & _).
  by rewrite <- app_assoc.
Qed.

End Dispatch.

(** ** The waiter *)

Section Waiter.
Context (E : Env).

(** [AeWait] reads the clock three times: in [nearestTime], for the
    timeout, and for the scan of the timers. *)
Lemma AeWait_error w :
  ready E (length (wait_log w)) = None →
  ∃ w1, AeWait E w = (([], [], true), w1)
        ∧ loop w1 = loop w ∧ heap w1 = heap w ∧ fired w1 = fired w
        ∧ length (wait_log w1) = S (length (wait_log w)).
Proof.
  intros Hr. unfold AeWait, nearestTime, EpollWait, GetMsTime. simpl.
  rewrite Hr. simpl. eexists. split; [done|]. simpl.
  repeat split. rewrite length_app. simpl. lia.
Qed.

Lemma AeWait_ok w evs :
  ready E (length (wait_log w)) = Some evs →
  ∃ w1, AeWait E w =
          ((List.filter (due (heap w) (wrap64 (wall E (S (S (ticks w))))))
                        (TimeEventHead (loop w)),
            concat (map (collect_file_event (FileEvents (loop w))) (filled evs)),
            false), w1)
        ∧ loop w1 = loop w ∧ heap w1 = heap w ∧ fired w1 = fired w
        ∧ length (wait_log w1) = S (length (wait_log w)).
Proof.
  intros Hr. unfold AeWait, nearestTime, EpollWait, GetMsTime. simpl.
  rewrite Hr. simpl. eexists. split; [done|]. simpl.
  repeat split. rewrite length_app. simpl. lia.
Qed.

(** What [AeWait] hands to the dispatcher was in the loop when it looked. *)
Lemma AeWait_snapshot w :
  ∃ tes fes err w1,
    AeWait E w = ((tes, fes, err), w1)
    ∧ loop w1 = loop w ∧ heap w1 = heap w ∧ fired w1 = fired w
    ∧ Forall (λ l, l ∈ TimeEventHead (loop w) ∧ is_Some (heap w !! l)) tes
    ∧ Forall (λ fe, ∃ k, fe_get (FileEvents (loop w)) k = Some fe) fes.
Proof.
  destruct (ready E (length (wait_log w))) as [evs|] eqn:Hr.
  - destruct (AeWait_ok w evs Hr) as (w1 & -> & Hl & Hh & Hf & _).
    eexists _, _, _, w1. split; [done|]. repeat split; try done.
    + apply Forall_forall. intros l Hin.
      apply list_elem_of_In, filter_In in Hin as [Hin Hdue].
      split; [by apply list_elem_of_In|].
      unfold due in Hdue. by destruct (heap w !! l).
    + apply Forall_forall. intros fe Hin.
      apply list_elem_of_In, in_concat in Hin as (fes & Hfes & Hin).
      apply in_map_iff in Hfes as (e & <- & _).
      unfold collect_file_event in Hin.
      repeat case_match; simpl in Hin; try done;
        destruct Hin as [<-|[]]; eauto.
  - destruct (AeWait_error w Hr) as (w1 & -> & Hl & Hh & Hf & _).
    eexists [], [], true, w1. by repeat split.
Qed.

End Waiter.

(** ** The driver *)

Section Driver.
Context (E : Env).

(** A turn of the loop in which [EpollWait] fails. *)
Lemma wait_error_turn w :
  stop (loop w) = false →
  ready E (length (wait_log w)) = None →
  let w' := AeMain_body E w in
  stop (loop w') = true
  ∧ fired w' = fired w
  ∧ loop w' = set_stop true (loop w)
  ∧ heap w' = heap w
  ∧ length (wait_log w') = S (length (wait_log w))
  ∧ ∀ fuel, AeMain_loop E (S fuel) w = Some w'.
Proof.
  intros Hstop Hr. cbv zeta.
  destruct (AeWait_error E w Hr) as (w1 & Hw & Hl & Hh & Hf & Hlen).
  assert (AeMain_body E w = set_loop (set_stop true) w1) as Hbody.
  { unfold AeMain_body. by rewrite Hw. }
  rewrite Hbody. cbn [set_loop set_stop loop heap fired wait_log stop].
  rewrite Hl. repeat split; try done.
  intros fuel. cbn [AeMain_loop]. rewrite Hstop, Hbody. by destruct fuel.
Qed.

(** [AeMain] entered when the first [EpollWait] fails: it returns after
    that one turn. *)
Lemma AeMain_wait_error w fuel :
  ready E (length (wait_log w)) = None →
  ∃ w', AeMain E (S fuel) w = Some w'
        ∧ stop (loop w') = true ∧ fired w' = fired w
        ∧ length (wait_log w') = S (length (wait_log w)).
Proof.
  intros Hr. unfold AeMain.
  destruct (wait_error_turn (set_loop (set_stop false) w) eq_refl Hr)
    as (Hs & Hf & _ & _ & Hlen & Hloop).
  eexists. split; [apply Hloop|]. by split.
Qed.

(** C4.  When [EpollWait] reports an error, that turn of the loop sets the
    stop flag and the loop is left at the end of the turn: [AeProcessEvents]
    is called with two nil slices, so no callback is invoked and nothing in
    the loop or in the timer nodes changes, and [EpollWait] was called once,
    not again. *)
Theorem C4_wait_error_ends_the_loop w :
  stop (loop w) = false →
  ready E (length (wait_log w)) = None →
  let w' := AeMain_body E w in
  stop (loop w') = true
  ∧ fired w' = fired w
  ∧ loop w' = set_stop true (loop w)
  ∧ heap w' = heap w
  ∧ length (wait_log w') = S (length (wait_log w))
  ∧ ∀ fuel, AeMain_loop E (S fuel) w = Some w'.
Proof. apply wait_error_turn. Qed.

(** One turn of the loop invokes callbacks of the events [AeWait] found
    registered, and of no other. *)
Lemma turn_fires_snapshot w :
  keys_ok (FileEvents (loop w)) →
  ∃ batch,
    fired (AeMain_body E w) = fired w ++ batch
    ∧ (∀ l id, FiredTime l id ∈ batch → l ∈ TimeEventHead (loop w))
    ∧ (∀ fe, FiredFile fe ∈ batch →
         fe_get (FileEvents (loop w)) (getFeKey (fe_fd fe) (fe_mask fe)) = Some fe).
Proof.
  intros Hkeys.
  destruct (AeWait_snapshot E w) as (tes & fes & err & w1 & Hw & Hl & Hh & Hf & Htes & Hfes).
  exists (flat_map (firing_of (heap w)) tes ++ map FiredFile fes).
  split; [|split].
  - unfold AeMain_body. rewrite Hw.
    rewrite AeProcessEvents_fired.
    + by destruct err; simpl; rewrite Hf, Hh.
    + eapply Forall_impl; [exact Htes|]. intros l [_ Hsome].
      by destruct err; simpl; rewrite Hh.
  - intros l id Hin. apply elem_of_app in Hin as [Hin|Hin].
    + apply list_elem_of_In, in_flat_map in Hin as (l' & Hl' & Hin).
      unfold firing_of in Hin. destruct (heap w !! l'); [|done].
      destruct Hin as [[= -> _]|[]].
      rewrite Forall_forall in Htes. by apply Htes, list_elem_of_In.
    + apply list_elem_of_In, in_map_iff in Hin as (? & ? & _). done.
  - intros fe Hin. apply elem_of_app in Hin as [Hin|Hin].
    + apply list_elem_of_In, in_flat_map in Hin as (l' & Hl' & Hin).
      unfold firing_of in Hin. destruct (heap w !! l'); [|done].
      by destruct Hin as [|[]].
    + apply list_elem_of_In, in_map_iff in Hin as (fe' & [= ->] & Hin).
      rewrite Forall_forall in Hfes.
      destruct (Hfes fe) as [k Hk]; [by apply list_elem_of_In|].
      by rewrite (Hkeys k fe Hk).
Qed.

(** C2, as the code has it.  The callbacks invoked in one turn of the loop
    all belong to events that were registered when [AeWait] took its
    snapshot: a timer that was in the timer list, a file event that was the
    registry's entry for its descriptor and direction.  An event
    unregistered before the wait of that turn is therefore not invoked in
    it. *)
Theorem C2_only_snapshot_events_fire w :
  keys_ok (FileEvents (loop w)) →
  ∃ batch,
    fired (AeMain_body E w) = fired w ++ batch
    ∧ (∀ l id, FiredTime l id ∈ batch → l ∈ TimeEventHead (loop w))
    ∧ (∀ fe, FiredFile fe ∈ batch →
         fe_get (FileEvents (loop w)) (getFeKey (fe_fd fe) (fe_mask fe)) = Some fe).
Proof. apply turn_fires_snapshot. Qed.

End Driver.

Lemma C4_wait_error_witness :
  stop (loop world_timer_r5) = false
  ∧ ready failing_wait (length (wait_log world_timer_r5)) = None
  ∧ ∃ w', AeMain_loop failing_wait 1 world_timer_r5 = Some w'
          ∧ stop (loop w') = true ∧ fired w' = [].
Proof.
  split; [reflexivity|]. split; [reflexivity|].
  destruct (C4_wait_error_ends_the_loop failing_wait world_timer_r5
              eq_refl eq_refl) as (Hs & Hf & _ & _ & _ & Hloop).
  eexists. split; [apply (Hloop 0%nat)|]. split; [exact Hs | exact Hf].
Defined.

Lemma cancel_world_keys_ok : keys_ok (FileEvents (loop cancel_world)).
Proof.
  unfold cancel_world.
  do 2 apply (frame_keys _ _ (frame_AeCreateFileEvent cancelling _ _ _ _ _)).
  apply keys_ok_empty.
Qed.

Lemma C2_only_snapshot_events_witness :
  keys_ok (FileEvents (loop cancel_world))
  ∧ ∃ batch,
      fired (AeMain_body cancelling cancel_world) = fired cancel_world ++ batch
      ∧ (∀ l id, FiredTime l id ∈ batch → l ∈ TimeEventHead (loop cancel_world))
      ∧ (∀ fe, FiredFile fe ∈ batch →
           fe_get (FileEvents (loop cancel_world)) (getFeKey (fe_fd fe) (fe_mask fe))
           = Some fe).
Proof.
  split; [apply cancel_world_keys_ok|].
  apply (C2_only_snapshot_events_fire cancelling cancel_world cancel_world_keys_ok).
Defined.

(** C2 as stated fails.  In one batch the callback of timer 2 unregisters
    timer 1 and the callback of descriptor 5 unregisters descriptor 6: both
    are gone from the timer list and the registry before the dispatcher
    reaches them, and both callbacks are invoked all the same. *)
Lemma C2_cancelled_events_still_fire :
  let fe5 := mkFileEvent 5 AE_READABLE 2%nat 0 in
  let fe6 := mkFileEvent 6 AE_READABLE 0%nat 0 in
  let tes := fst (fst (fst (AeWait cancelling cancel_world))) in
  let fes := snd (fst (fst (AeWait cancelling cancel_world))) in
  let w1 := snd (AeWait cancelling cancel_world) in
  let w2 := process_time_event cancelling 1%nat w1 in
  let w3 := process_time_event cancelling 0%nat w2 in
  let w4 := process_file_event cancelling fe5 w3 in
  TimeEventHead (loop cancel_world) = [1%nat; 0%nat]
  ∧ tes = [1%nat; 0%nat] ∧ fes = [fe5; fe6]
  ∧ TimeEventHead (loop (call_timeProc cancelling 1%nat w1)) = [1%nat]
  ∧ TimeEventHead (loop w2) = [] ∧ fired w2 = [FiredTime 1%nat 2]
  ∧ fired w3 = [FiredTime 1%nat 2; FiredTime 0%nat 1]
  ∧ fe_get (FileEvents (loop w4)) (getFeKey 6 AE_READABLE) = None
  ∧ fired w4 = [FiredTime 1%nat 2; FiredTime 0%nat 1; FiredFile fe5]
  ∧ fired (AeProcessEvents cancelling tes fes w1)
    = [FiredTime 1%nat 2; FiredTime 0%nat 1; FiredFile fe5; FiredFile fe6].
Proof. vm_compute. done. Qed.

(** ** File events fire once *)

Lemma process_file_event_unregisters E fe w :
  fe_get (FileEvents (loop (process_file_event E fe w)))
         (getFeKey (fe_fd fe) (fe_mask fe)) = None.
Proof.
  unfold process_file_event.
  rewrite AeDeleteFileEvent_FileEvents. apply fe_get_insert_eq.
Qed.

(** C6.  Dispatching a ready file event invokes its callback once and then
    removes the registry's entry for its descriptor and direction, whatever
    the callback did (even if it registered the pair again).  The next turn
    of the loop therefore invokes no callback for that pair, whatever the
    kernel reports. *)
Theorem C6_file_event_is_single_shot E fe w :
  keys_ok (FileEvents (loop w)) →
  let w' := process_file_event E fe w in
  fired w' = fired w ++ [FiredFile fe]
  ∧ fe_get (FileEvents (loop w')) (getFeKey (fe_fd fe) (fe_mask fe)) = None
  ∧ ∃ batch,
      fired (AeMain_body E w') = fired w' ++ batch
      ∧ ∀ fe', FiredFile fe' ∈ batch →
               ¬ (fe_fd fe' = fe_fd fe ∧ fe_mask fe' = fe_mask fe).
Proof.
  intros Hkeys w'. split; [apply process_file_event_fired|].
  split; [apply process_file_event_unregisters|].
  destruct (turn_fires_snapshot E w') as (batch & Hb & _ & Hfe).
  { by apply process_file_event_keys. }
  exists batch. split; [done|]. intros fe' Hin [Hfd Hmask].
  specialize (Hfe fe' Hin). rewrite Hfd, Hmask in Hfe.
  unfold w' in Hfe. by rewrite process_file_event_unregisters in Hfe.
Qed.

Lemma world_r5_keys_ok : keys_ok (FileEvents (loop world_r5)).
Proof.
  apply (frame_keys _ _ (frame_AeCreateFileEvent quiet 5 AE_READABLE 1%nat 10 _)).
  apply keys_ok_empty.
Qed.

Lemma C6_file_event_witness :
  let fe := mkFileEvent 5 AE_READABLE 1%nat 10 in
  keys_ok (FileEvents (loop world_r5))
  ∧ fired (process_file_event insistent fe world_r5) = [FiredFile fe]
  ∧ fe_get (FileEvents (loop (process_file_event insistent fe world_r5)))
           (getFeKey 5 AE_READABLE) = None.
Proof.
  split; [apply world_r5_keys_ok|].
  destruct (C6_file_event_is_single_shot insistent
              (mkFileEvent 5 AE_READABLE 1%nat 10) world_r5 world_r5_keys_ok)
    as (Hf & Hk & _).
  split; [exact Hf | exact Hk].
Defined.

(** ** Both directions ready *)

(** An entry of the ready list with the readable flag set contributes the
    entry under the descriptor's Readable key and nothing else, whether or
    not the writable flag is set as well. *)
Lemma collect_readable_first m e :
  Z.land (Events e) EPOLLIN ≠ 0 →
  collect_file_event m e =
    match fe_get m (getFeKey (Fd e) AE_READABLE) with
    | Some fe => [fe]
    | None => []
    end.
Proof. intros Hin. unfold collect_file_event. by rewrite bool_decide_eq_true_2. Qed.

Lemma registry_wf_empty : registry_wf ∅.
Proof.
  split; [apply keys_ok_empty|]. intros k fe. unfold fe_get.
  by rewrite lookup_empty.
Qed.

Lemma registry_wf_AeCreateFileEvent E fd mask proc cd w :
  0 ≤ fd ≤ max_int64 →
  registry_wf (FileEvents (loop w)) →
  registry_wf (FileEvents (loop (AeCreateFileEvent E fd mask proc cd w))).
Proof.
  intros Hfd [Hk Hn]. split.
  - by apply (frame_keys _ _ (frame_AeCreateFileEvent E fd mask proc cd w)).
  - rewrite AeCreateFileEvent_FileEvents. case_match; [|done].
    intros k fe. destruct (decide (getFeKey fd mask = k)) as [<-|Hne].
    + rewrite fe_get_insert_eq. by intros [= <-].
    + rewrite fe_get_insert_ne by done. apply Hn.
Qed.

Lemma registry_wf_AeDeleteFileEvent E fd mask w :
  registry_wf (FileEvents (loop w)) →
  registry_wf (FileEvents (loop (AeDeleteFileEvent E fd mask w))).
Proof.
  intros [Hk Hn]. split.
  - by apply (frame_keys _ _ (frame_AeDeleteFileEvent E fd mask w)).
  - rewrite AeDeleteFileEvent_FileEvents.
    intros k fe. destruct (decide (getFeKey fd mask = k)) as [<-|Hne].
    + by rewrite fe_get_insert_eq.
    + rewrite fe_get_insert_ne by done. apply Hn.
Qed.

(** For a descriptor other than 0 the else-if of [AeWait] does what the
    design note says: reported ready for both directions, the descriptor
    yields its Readable registration if it has one, and never its Writable
    registration. *)
Lemma both_ready_yields_readable m e fe :
  registry_wf m →
  0 < Fd e →
  Z.land (Events e) EPOLLIN ≠ 0 →
  Z.land (Events e) EPOLLOUT ≠ 0 →
  fe ∈ collect_file_event m e →
  fe_fd fe = Fd e ∧ fe_mask fe = AE_READABLE
  ∧ fe_get m (getFeKey (Fd e) AE_READABLE) = Some fe.
Proof.
  intros [Hk Hn] Hpos Hin _ Hfe.
  rewrite collect_readable_first in Hfe by done.
  destruct (fe_get m (getFeKey (Fd e) AE_READABLE)) as [fe0|] eqn:Hget;
    [|by apply elem_of_nil in Hfe].
  apply list_elem_of_singleton in Hfe as ->.
  pose proof (Hk _ _ Hget) as Hkey. pose proof (Hn _ _ Hget) as Hfd.
  unfold getFeKey in Hkey at 2. rewrite bool_decide_eq_true_2 in Hkey by done.
  unfold getFeKey in Hkey. case_bool_decide as Hm.
  - done.
  - exfalso. unfold neg64 in Hkey. rewrite wrap64_id in Hkey; [lia|].
    unfold int64, min_int64, max_int64 in *. lia.
Qed.


(** ** The timer list *)

Lemma StronglySorted_sublist {A} (R : relation A) (l1 l2 : list A) :
  l1 `sublist_of` l2 → StronglySorted R l2 → StronglySorted R l1.
Proof.
  induction 1 as [|x l1 l2 Hsub IH|x l1 l2 Hsub IH]; intros Hs.
  - constructor.
  - apply StronglySorted_cons in Hs as [Hall Hs].
    apply StronglySorted_cons. split; [|by apply IH].
    apply Forall_forall. intros y Hy. rewrite Forall_forall in Hall.
    apply Hall. by eapply elem_of_sublist.
  - apply StronglySorted_cons in Hs as [_ Hs]. by apply IH.
Qed.


Lemma unlink_sublist h id ls : unlink h id ls `sublist_of` ls.
Proof.
  induction ls as [|l ls IH]; simpl; [constructor|].
  destruct (h !! l) as [te|]; [case_bool_decide|]; by constructor.
Qed.

Lemma newer_NoDup h ls : StronglySorted (newer h) ls → NoDup ls.
Proof.
  induction 1 as [|l ls _ IH Hall]; constructor; [|done].
  intros Hin. rewrite Forall_forall in Hall. specialize (Hall l Hin).
  unfold newer in Hall. lia.
Qed.

Lemma filter_ne_absent (l : loc) (ls : list loc) :
  l ∉ ls → filter (λ l', l' ≠ l) ls = ls.
Proof.
  induction ls as [|l0 ls IH]; intros Hnotin; [done|].
  apply not_elem_of_cons in Hnotin as [Hne Hnotin].
  rewrite filter_cons_True by done. by rewrite IH.
Qed.

(** With ids naming nodes, the scan of [AeDeleteTimeEvent] for the id of
    node [l] takes [l] out of the chain and nothing else. *)
Lemma unlink_removes h ls l te :
  h !! l = Some te →
  (∀ l1 l2 te1 te2, h !! l1 = Some te1 → h !! l2 = Some te2 →
                    te_id te1 = te_id te2 → l1 = l2) →
  NoDup ls →
  unlink h (te_id te) ls = filter (λ l', l' ≠ l) ls.
Proof.
  intros Hl Hinj. induction 1 as [|l0 ls Hnotin Hnd IH]; simpl; [done|].
  destruct (h !! l0) as [te0|] eqn:Hl0.
  - case_bool_decide as Hid.
    + assert (l0 = l) as -> by eauto.
      rewrite filter_cons_False by naive_solver.
      by rewrite filter_ne_absent.
    + assert (l0 ≠ l) as Hne by (intros ->; congruence).
      rewrite filter_cons_True by done. by rewrite IH.
  - assert (l0 ≠ l) as Hne by (intros ->; congruence).
    rewrite filter_cons_True by done. by rewrite IH.
Qed.

Lemma timers_ok_new e : TimeEventHead e = [] → timers_ok (new_world e).
Proof.
  intros He. split; simpl; rewrite ?He.
  - constructor.
  - intros l te. by rewrite lookup_empty.
  - intros l1 l2 te1 te2. by rewrite lookup_empty.
  - constructor.
Qed.

(** Steps that leave the timers alone. *)
Lemma timers_ok_same w w' :
  heap w' = heap w →
  TimeEventHead (loop w') = TimeEventHead (loop w) →
  timeEventNextId (loop w') = timeEventNextId (loop w) →
  timers_ok w → timers_ok w'.
Proof.
  intros Hh Hl Hn [Ha Hb Hi Hs]. split; rewrite ?Hh, ?Hl, ?Hn; done.
Qed.

Section Timers.
Context (E : Env).

Lemma timers_ok_AeCreateFileEvent fd mask proc cd w :
  timers_ok w → timers_ok (AeCreateFileEvent E fd mask proc cd w).
Proof.
  apply timers_ok_same; unfold AeCreateFileEvent.
  all: pose proof (EpollCtl_loop E (create_op (FileEvents (loop w)) fd) fd
                     (ctl_event_for fd mask) w) as Hl.
  all: pose proof (EpollCtl_heap E (create_op (FileEvents (loop w)) fd) fd
                     (ctl_event_for fd mask) w) as Hh.
  all: destruct (EpollCtl E _ fd _ w) as [[] w1]; simpl in *; by rewrite ?Hl, ?Hh.
Qed.

Lemma timers_ok_AeDeleteFileEvent fd mask w :
  timers_ok w → timers_ok (AeDeleteFileEvent E fd mask w).
Proof.
  apply timers_ok_same; unfold AeDeleteFileEvent;
    by rewrite ?EpollCtl_heap, ?EpollCtl_loop.
Qed.


Lemma timers_ok_AeCreateTimeEvent mask dur proc cd w :
  int64 (timeEventNextId (loop w) + 1) →
  timers_ok w → timers_ok (snd (AeCreateTimeEvent E mask dur proc cd w)).
Proof.
  intros Hcnt [Ha Hb Hi Hs]. pose proof (alloc_fresh (heap w)) as Hfresh.
  assert (∀ l, is_Some (heap w !! l) →
               id_at (<[alloc (heap w) := mkTimeEvent (timeEventNextId (loop w)) mask
                          (add64 (wrap64 (wall E (ticks w))) dur) dur proc cd]> (heap w)) l
               = id_at (heap w) l) as Hid.
  { intros l [te Hl]. unfold id_at. rewrite lookup_insert_ne; [done|].
    intros <-. congruence. }
  split; simpl.
  - constructor.
    + rewrite lookup_insert_eq. by eexists.
    + eapply Forall_impl; [exact Ha|]. intros l [te Hl]. simpl.
      assert (alloc (heap w) ≠ l) by (intros <-; congruence).
      rewrite lookup_insert_ne by done. eauto.
  - replace (add64 (timeEventNextId (loop w)) 1) with (timeEventNextId (loop w) + 1)
      by (unfold add64; by rewrite wrap64_id).
    intros l te. destruct (decide (alloc (heap w) = l)) as [<-|Hne].
    + rewrite lookup_insert_eq. intros [= <-]. simpl. lia.
    + rewrite lookup_insert_ne by done. intros Hl. specialize (Hb l te Hl). lia.
  - intros l1 l2 te1 te2.
    destruct (decide (alloc (heap w) = l1)) as [<-|Hne1];
      destruct (decide (alloc (heap w) = l2)) as [<-|Hne2]; [done| | |].
    + rewrite lookup_insert_eq, lookup_insert_ne by done.
      intros [= <-] Hl2 Hid'. simpl in Hid'. specialize (Hb l2 te2 Hl2). lia.
    + rewrite lookup_insert_eq, lookup_insert_ne by done.
      intros Hl1 [= <-] Hid'. simpl in Hid'. specialize (Hb l1 te1 Hl1). lia.
    + rewrite !lookup_insert_ne by done. apply Hi.
  - apply StronglySorted_cons. split.
    + apply Forall_forall. intros l Hin. rewrite Forall_forall in Ha.
      unfold newer. rewrite (Hid l (Ha l Hin)).
      unfold id_at at 2. rewrite lookup_insert_eq. simpl.
      destruct (Ha l Hin) as [te Hl]. unfold id_at. rewrite Hl. by apply (Hb l).
    + clear Hb Hi. induction Hs as [|l ls Hs IH Hall]; [constructor|].
      apply Forall_cons in Ha as [Hl Ha]. constructor; [by apply IH|].
      apply Forall_forall. intros l' Hin'. unfold newer.
      rewrite Forall_forall in Hall, Ha.
      rewrite (Hid l Hl), (Hid l' (Ha l' Hin')). by apply Hall.
Qed.

Lemma timers_ok_AeDeleteTimeEvent id w :
  timers_ok w → timers_ok (AeDeleteTimeEvent id w).
Proof.
  intros [Ha Hb Hi Hs]. split; simpl; try done.
  - apply Forall_forall. intros l Hin. rewrite Forall_forall in Ha.
    apply Ha. eapply elem_of_sublist; [exact Hin | apply unlink_sublist].
  - eapply StronglySorted_sublist; [apply unlink_sublist | done].
Qed.

Lemma timers_ok_GetMsTime w : timers_ok w → timers_ok (snd (GetMsTime E w)).
Proof. by apply timers_ok_same. Qed.

(** The dispatcher's treatment of a timer after its callback keeps the
    shape of the timer list. *)
Lemma timers_ok_after_timeProc l w :
  timers_ok w → timers_ok (after_timeProc E l w).
Proof.
  intros Hok. unfold after_timeProc. destruct (heap w !! l) as [te|] eqn:Hl; [|done].
  case_bool_decide; [|by apply timers_ok_AeDeleteTimeEvent].
  destruct Hok as [Ha Hb Hi Hs]. simpl.
  assert (∀ l0, id_at (<[l := mkTimeEvent (te_id te) (te_mask te)
                              (add64 (wrap64 (wall E (ticks w))) (duration te))
                              (duration te) (timeProc te) (te_clientData te)]> (heap w)) l0
                = id_at (heap w) l0) as Hid.
  { intros l0. unfold id_at. destruct (decide (l = l0)) as [<-|Hne].
    - by rewrite lookup_insert_eq, Hl.
    - by rewrite lookup_insert_ne. }
  split; simpl.
  - eapply Forall_impl; [exact Ha|]. intros l0 Hsome. simpl.
    destruct (decide (l = l0)) as [<-|Hne].
    + rewrite lookup_insert_eq. by eexists.
    + by rewrite lookup_insert_ne.
  - intros l0 te0. destruct (decide (l = l0)) as [<-|Hne].
    + rewrite lookup_insert_eq. intros [= <-]. simpl. by apply (Hb l).
    + rewrite lookup_insert_ne by done. apply Hb.
  - intros l1 l2 te1 te2 Hl1 Hl2 Hid'.
    assert (id_at (heap w) l1 = id_at (heap w) l2) as Hat.
    { rewrite <- !Hid. unfold id_at. by rewrite Hl1, Hl2. }
    assert (is_Some (heap w !! l1)) as [t1 Ht1].
    { destruct (decide (l = l1)) as [<-|Hne]; [by eexists|].
      rewrite lookup_insert_ne in Hl1 by done. by eexists. }
    assert (is_Some (heap w !! l2)) as [t2 Ht2].
    { destruct (decide (l = l2)) as [<-|Hne]; [by eexists|].
      rewrite lookup_insert_ne in Hl2 by done. by eexists. }
    unfold id_at in Hat. rewrite Ht1, Ht2 in Hat. by apply (Hi l1 l2 t1 t2).
  - clear Ha. induction Hs as [|l0 ls Hs IH Hall]; [constructor|].
    constructor; [done|]. eapply Forall_impl; [exact Hall|].
    intros l'. unfold newer. by rewrite !Hid.
Qed.

End Timers.

(** ** After a timer's callback *)

Lemma AE_ONCE_not_NORMAL : AE_ONCE ≠ AE_NORMAL.
Proof. done. Qed.

(** C7.  What the dispatcher does with node [l] once its callback has
    returned depends on the node's kind alone.  A recurring timer
    ([AE_NORMAL]) stays in the chain and has [when] overwritten in place
    with the clock reading taken now, after the callback, plus its
    [duration]; the old [when] and the time of registration play no part.
    A one-shot timer ([AE_ONCE], or any kind other than [AE_NORMAL]) is
    taken out of the chain, which otherwise stays as it is. *)
Theorem C7_after_timer_callback E l te w :
  timers_ok w →
  heap w !! l = Some te →
  let w' := after_timeProc E l w in
  let now := fst (GetMsTime E w) in
  (te_mask te = AE_NORMAL →
     heap w' !! l = Some (mkTimeEvent (te_id te) (te_mask te)
                            (add64 now (duration te)) (duration te)
                            (timeProc te) (te_clientData te))
     ∧ (∀ l', l' ≠ l → heap w' !! l' = heap w !! l')
     ∧ TimeEventHead (loop w') = TimeEventHead (loop w))
  ∧ (te_mask te ≠ AE_NORMAL →
     (l ∉ TimeEventHead (loop w'))
     ∧ TimeEventHead (loop w') = filter (λ l', l' ≠ l) (TimeEventHead (loop w))
     ∧ heap w' = heap w).
Proof.
  intros [Ha Hb Hi Hs] Hl. cbv zeta. unfold after_timeProc. rewrite Hl. split.
  - intros Hm. rewrite bool_decide_eq_true_2 by done. simpl.
    split; [by rewrite lookup_insert_eq|]. split; [|done].
    intros l' Hne. by rewrite lookup_insert_ne.
  - intros Hm. rewrite bool_decide_eq_false_2 by done. simpl.
    rewrite (unlink_removes (heap w) _ l te Hl Hi (newer_NoDup _ _ Hs)).
    split; [|done]. intros Hin. apply list_elem_of_filter in Hin as [Hne _]. done.
Qed.

Lemma two_timers_ok : timers_ok two_timers.
Proof.
  unfold two_timers.
  apply timers_ok_AeCreateTimeEvent; [done|].
  apply timers_ok_AeCreateTimeEvent; [done|].
  by apply timers_ok_new.
Qed.

Lemma C7_after_timer_callback_witness :
  timers_ok two_timers
  ∧ heap two_timers !! 0%nat = Some (mkTimeEvent 1 AE_ONCE 1000 0 1%nat 10)
  ∧ heap two_timers !! 1%nat = Some (mkTimeEvent 2 AE_NORMAL 1060 50 2%nat 20)
  ∧ TimeEventHead (loop (after_timeProc quiet 0%nat two_timers)) = [1%nat]
  ∧ heap (after_timeProc quiet 1%nat two_timers) !! 1%nat
    = Some (mkTimeEvent 2 AE_NORMAL 1070 50 2%nat 20).
Proof.
  split; [apply two_timers_ok|]. split; [reflexivity|]. split; [reflexivity|].
  split.
  - destruct (C7_after_timer_callback quiet 0%nat
                (mkTimeEvent 1 AE_ONCE 1000 0 1%nat 10) two_timers
                two_timers_ok eq_refl) as [_ Honce].
    destruct (Honce AE_ONCE_not_NORMAL) as (_ & Hhead & _).
    etrans; [exact Hhead | reflexivity].
  - destruct (C7_after_timer_callback quiet 1%nat
                (mkTimeEvent 2 AE_NORMAL 1060 50 2%nat 20) two_timers
                two_timers_ok eq_refl) as [Hnormal _].
    destruct (Hnormal eq_refl) as (Hwhen & _).
    etrans; [exact Hwhen | reflexivity].
Defined.

(** ** The nearest deadline *)

Lemma foldr_min_le c ds : foldr Z.min c ds ≤ c.
Proof. induction ds as [|d ds IH]; simpl; lia. Qed.

Lemma foldr_min_init a b ds :
  foldr Z.min (Z.min a b) ds = Z.min b (foldr Z.min a ds).
Proof. induction ds as [|d ds IH]; simpl; lia. Qed.

Lemma nearest_scan (h : gmap loc AeTimeEvent) ls init :
  fold_left
    (λ nearest l,
       match h !! l with
       | Some te => if bool_decide (when te < nearest) then when te else nearest
       | None => nearest
       end) ls init
  = foldr Z.min init (omap (λ l, when <$> h !! l) ls).
Proof.
  revert init. induction ls as [|l ls IH]; intros init; simpl; [done|].
  rewrite IH. destruct (h !! l) as [te|]; simpl; [|done].
  rewrite <- foldr_min_init. f_equal. case_bool_decide; lia.
Qed.

Section Nearest.
Context (E : Env).

Lemma nearestTime_value w :
  fst (nearestTime E w)
  = foldr Z.min (add64 (wrap64 (wall E (ticks w))) 1000) (deadlines w).
Proof. unfold nearestTime, deadlines. simpl. apply nearest_scan. Qed.

Lemma nearestTime_bound w :
  fst (nearestTime E w) - wrap64 (wall E (ticks w)) ≤ 1000.
Proof.
  rewrite nearestTime_value.
  pose proof (foldr_min_le (add64 (wrap64 (wall E (ticks w))) 1000) (deadlines w)).
  pose proof (wrap64_range (wall E (ticks w))) as Hnow.
  pose proof (wrap64_le (wrap64 (wall E (ticks w)) + 1000)) as Hle.
  unfold add64, int64, min_int64, max_int64 in *. lia.
Qed.


(** The timeout [AeWait] passes to [EpollWait] is positive, and at most
    1000ms when the clock did not step back between the reading in
    [nearestTime] and the next one and the difference fits an [int64]. *)
Lemma AeWait_timeout w :
  let now := wrap64 (wall E (ticks w)) in
  let now0 := wrap64 (wall E (S (ticks w))) in
  let nearest := fst (nearestTime E w) in
  ∃ timeout,
    wait_log (snd (AeWait E w)) = wait_log w ++ [timeout]
    ∧ timeout = (if bool_decide (sub64 nearest now0 ≤ 0) then 10
                 else sub64 nearest now0)
    ∧ 0 < timeout
    ∧ (now ≤ now0 → min_int64 ≤ nearest - now0 → timeout ≤ 1000).
Proof.
  cbv zeta. pose proof (nearestTime_bound w) as Hcap.
  set (nearest := fst (nearestTime E w)) in *.
  assert (nearestTime E w = (nearest, snd (GetMsTime E w))) as Hn by done.
  eexists. split; [|split; [reflexivity|split]].
  - unfold AeWait. rewrite Hn. unfold EpollWait. simpl.
    by destruct (ready E (length (wait_log w))).
  - case_bool_decide; lia.
  - intros Hmono Hfit. case_bool_decide; [lia|].
    pose proof (wrap64_le (nearest - wrap64 (wall E (S (ticks w)))) Hfit).
    unfold sub64. lia.
Qed.

End Nearest.


(** ** The order of timer callbacks *)




Section Order.
Context (E : Env).



End Order.


(** The three callbacks are invoked newest first: timers 3, 2, 1. *)
Lemma three_timers_fire_in_reverse :
  TimeEventHead (loop three_timers) = [2%nat; 1%nat; 0%nat]
  ∧ fired (AeMain_body quiet three_timers)
    = [FiredTime 2%nat 3; FiredTime 1%nat 2; FiredTime 0%nat 1].
Proof. vm_compute. done. Qed.


(** ** The chain of pointers and the list of addresses *)

Lemma lseg_frame nx p q ls l v :
  l ∉ ls → lseg nx p q ls → lseg (<[l := v]> nx) p q ls.
Proof.
  revert p. induction ls as [|l0 ls IH]; intros p Hnotin; simpl; [done|].
  apply not_elem_of_cons in Hnotin as [Hne Hnotin].
  intros (-> & next & Hl0 & Hseg). split; [done|]. exists next.
  rewrite lookup_insert_ne by done. split; [done|]. by apply IH.
Qed.

Lemma lseg_app nx p q r ls1 ls2 :
  lseg nx p q ls1 → lseg nx q r ls2 → lseg nx p r (ls1 ++ ls2).
Proof.
  revert p. induction ls1 as [|l ls1 IH]; intros p; simpl.
  - by intros ->.
  - intros (-> & next & Hl & Hseg) H2. split; [done|]. exists next.
    split; [done|]. by apply IH.
Qed.

Lemma lseg_snoc_inv nx p q ls l :
  lseg nx p q (ls ++ [l]) → lseg nx p (Some l) ls ∧ nx !! l = Some q.
Proof.
  revert p. induction ls as [|l0 ls IH]; intros p; simpl.
  - by intros (-> & next & Hl & ->).
  - intros (-> & next & Hl0 & Hseg). destruct (IH _ Hseg) as [Hseg' Hl].
    split; [|done]. split; [done|]. by exists next.
Qed.

(** Putting a fresh node in front of the chain is [cons] on the list. *)
Lemma ptr_push_refines nx head ls l :
  l ∉ ls → lseg nx head None ls →
  let '(nx', head') := ptr_push nx head l in
  lseg nx' head' None (l :: ls).
Proof.
  intros Hnotin Hseg. simpl. split; [done|]. exists head.
  rewrite lookup_insert_eq. split; [done|]. by apply lseg_frame.
Qed.

(** The scan, part way through: [pre] has been passed without a match,
    [prev] is its last node and [te] the first node of [suf]. *)
Lemma ptr_delete_scan h id nx head suf :
  ∀ fuel pre prev te,
    lseg nx head te pre → lseg nx te None suf →
    prev = last pre → NoDup (pre ++ suf) → (length suf ≤ fuel)%nat →
    let '(nx', head') := ptr_delete fuel h id nx head prev te in
    lseg nx' head' None (pre ++ unlink h id suf).
Proof.
  induction suf as [|l rest IH]; intros fuel pre prev te Hpre Hsuf Hprev Hnd Hfuel.
  - simpl in Hsuf. subst te. rewrite app_nil_r.
    by destruct fuel.
  - destruct Hsuf as (-> & next & Hl & Hrest).
    destruct fuel as [|fuel]; [simpl in Hfuel; lia|].
    simpl in Hfuel. cbn [ptr_delete unlink]. rewrite Hl. simpl.
    assert ((l ∉ pre) ∧ (l ∉ rest) ∧ NoDup pre ∧ NoDup rest
            ∧ ∀ x, x ∈ pre → x ∉ rest) as (Hlpre & Hlrest & Hndpre & Hndrest & Hdisj).
    { apply NoDup_app in Hnd as (Hndpre & Hdisj & Hndsuf).
      apply NoDup_cons in Hndsuf as [Hlrest Hndrest].
      repeat split; try done.
      - intros Hin. apply (Hdisj l Hin). by left.
      - intros x Hx Hx'. apply (Hdisj x Hx). by right. }
    destruct (h !! l) as [node|] eqn:Hnode; [case_bool_decide as Hid|].
    + (* the node to remove *)
      destruct pre as [|p0 pre0 _] using rev_ind.
      * simpl in Hprev, Hpre. subst prev. simpl.
        by apply lseg_frame.
      * rewrite last_snoc in Hprev. subst prev.
        apply lseg_snoc_inv in Hpre as [Hpre0 Hp0].
        apply lseg_frame.
        { intros Hin. apply elem_of_app in Hin as [Hin|Hin]; done. }
        assert ((p0 ∉ pre0) ∧ (p0 ∉ rest)) as [Hp0pre Hp0rest].
        { split.
          - apply NoDup_app in Hndpre as (_ & Hd & _).
            intros Hin. apply (Hd p0 Hin). by left.
          - apply Hdisj. apply elem_of_app. right. by left. }
        apply (lseg_app _ _ next); [|by apply lseg_frame].
        apply (lseg_app _ _ (Some p0)); [by apply lseg_frame|].
        simpl. split; [done|]. exists next. by rewrite lookup_insert_eq.
    + (* not this one: move on *)
      replace (pre ++ l :: unlink h id rest) with ((pre ++ [l]) ++ unlink h id rest)
        by (by rewrite <- app_assoc).
      apply IH; [|done|by rewrite last_snoc|by rewrite <- app_assoc|lia].
      apply (lseg_app _ _ (Some l)); [done|]. simpl. split; [done|]. by exists next.
    + replace (pre ++ l :: unlink h id rest) with ((pre ++ [l]) ++ unlink h id rest)
        by (by rewrite <- app_assoc).
      apply IH; [|done|by rewrite last_snoc|by rewrite <- app_assoc|lia].
      apply (lseg_app _ _ (Some l)); [done|]. simpl. split; [done|]. by exists next.
Qed.

(** [AeDeleteTimeEvent]'s pointer surgery terminates on a chain and leaves
    the chain of the list [unlink] computes. *)
Lemma ptr_delete_refines h id nx head ls fuel :
  lseg nx head None ls → NoDup ls → (length ls ≤ fuel)%nat →
  let '(nx', head') := ptr_delete fuel h id nx head None head in
  lseg nx' head' None (unlink h id ls).
Proof.
  intros Hseg Hnd Hfuel.
  by apply (ptr_delete_scan h id nx head ls fuel [] None head).
Qed.

(** * Further properties of the loop *)

(** ** The registry as a map *)

Lemma getFeKey_nonneg_inj fd1 m1 fd2 m2 :
  0 ≤ fd1 ≤ max_int64 → 0 ≤ fd2 ≤ max_int64 →
  getFeKey fd1 m1 = getFeKey fd2 m2 →
  fd1 = fd2 ∧ (fd1 ≠ 0 → (m1 = AE_READABLE ↔ m2 = AE_READABLE)).
Proof.
  intros H1 H2. unfold getFeKey, neg64.
  assert (∀ fd, 0 ≤ fd ≤ max_int64 → wrap64 (fd * -1) = - fd) as Hneg.
  { intros fd Hfd. rewrite wrap64_id; [lia|].
    unfold int64, min_int64, max_int64 in *. lia. }
  repeat case_bool_decide; rewrite ?(Hneg fd1 H1), ?(Hneg fd2 H2); intros Heq;
    (split; [lia|]); intros Hnz; split; intros; try done; lia.
Qed.

(** X1.  For a descriptor other than 0 (and other than the smallest [int]),
    registering or unregistering one direction leaves the entry the
    registry holds for the other direction as it was, whether or not the
    kernel accepted the call. *)
Theorem X1_directions_independent_off_zero E fd mask mask' proc cd w :
  int64 fd → fd ≠ 0 → fd ≠ min_int64 → other_direction mask mask' →
  fe_get (FileEvents (loop (AeCreateFileEvent E fd mask proc cd w))) (getFeKey fd mask')
    = fe_get (FileEvents (loop w)) (getFeKey fd mask')
  ∧ fe_get (FileEvents (loop (AeDeleteFileEvent E fd mask w))) (getFeKey fd mask')
    = fe_get (FileEvents (loop w)) (getFeKey fd mask').
Proof. apply registrations_independent. Qed.

Lemma X1_directions_independent_witness :
  fe_get (FileEvents (loop (AeDeleteFileEvent quiet 5 AE_WRITABLE world_rw5)))
         (getFeKey 5 AE_READABLE)
  = fe_get (FileEvents (loop world_rw5)) (getFeKey 5 AE_READABLE).
Proof.
  apply (X1_directions_independent_off_zero quiet 5 AE_WRITABLE AE_READABLE
           0%nat 0 world_rw5).
  - unfold int64, min_int64, max_int64. lia.
  - lia.
  - unfold min_int64. lia.
  - right. split; [discriminate | reflexivity].
Defined.

(** X2.  The keys of [getFeKey] tell valid descriptors apart: two
    non-negative descriptors with the same key are the same descriptor, and
    unless it is 0 the directions agree too. *)
Theorem X2_keys_tell_descriptors_apart fd1 m1 fd2 m2 :
  0 ≤ fd1 ≤ max_int64 → 0 ≤ fd2 ≤ max_int64 →
  getFeKey fd1 m1 = getFeKey fd2 m2 →
  fd1 = fd2 ∧ (fd1 ≠ 0 → (m1 = AE_READABLE ↔ m2 = AE_READABLE)).
Proof. apply getFeKey_nonneg_inj. Qed.

Lemma X2_keys_witness :
  7 = 7 ∧ (7 ≠ 0 → (AE_WRITABLE = AE_READABLE ↔ 3 = AE_READABLE)).
Proof.
  apply (X2_keys_tell_descriptors_apart 7 AE_WRITABLE 7 3).
  - unfold max_int64. lia.
  - unfold max_int64. lia.
  - reflexivity.
Defined.

(** X3.  A registration the kernel accepts is what the registry returns
    for its descriptor and direction afterwards, whatever was registered
    there before (the last registration wins), and the entries under all
    other keys are untouched. *)
Theorem X3_last_registration_wins E fd mask proc cd w :
  fst (EpollCtl E (create_op (FileEvents (loop w)) fd) fd (ctl_event_for fd mask) w) = true →
  let w' := AeCreateFileEvent E fd mask proc cd w in
  fe_get (FileEvents (loop w')) (getFeKey fd mask) = Some (mkFileEvent fd mask proc cd)
  ∧ ∀ k, k ≠ getFeKey fd mask →
         fe_get (FileEvents (loop w')) k = fe_get (FileEvents (loop w)) k.
Proof.
  intros Hok. cbv zeta. rewrite AeCreateFileEvent_FileEvents, Hok. split.
  - apply fe_get_insert_eq.
  - intros k Hk. by apply fe_get_insert_ne.
Qed.

Lemma X3_last_registration_witness :
  fe_get (FileEvents (loop (AeCreateFileEvent quiet 5 AE_READABLE 7%nat 70 world_rw5)))
         (getFeKey 5 AE_READABLE)
  = Some (mkFileEvent 5 AE_READABLE 7%nat 70).
Proof.
  apply (X3_last_registration_wins quiet 5 AE_READABLE 7%nat 70 world_rw5).
  reflexivity.
Defined.

(** X4.  Unregistering always succeeds in the registry, whatever the kernel
    answers: the lookup for that descriptor and direction is nil
    afterwards and all other lookups are unchanged, so unregistering what
    was not registered changes no lookup.  The Go map itself never
    shrinks: the key stays, holding nil. *)
Theorem X4_unregister_in_the_registry E fd mask w :
  let m := FileEvents (loop w) in
  let m' := FileEvents (loop (AeDeleteFileEvent E fd mask w)) in
  fe_get m' (getFeKey fd mask) = None
  ∧ (∀ k, k ≠ getFeKey fd mask → fe_get m' k = fe_get m k)
  ∧ (fe_get m (getFeKey fd mask) = None → ∀ k, fe_get m' k = fe_get m k)
  ∧ m' !! getFeKey fd mask = Some None
  ∧ dom m' = {[getFeKey fd mask]} ∪ dom m.
Proof.
  cbv zeta. rewrite AeDeleteFileEvent_FileEvents.
  split; [apply fe_get_insert_eq|].
  split; [intros k Hk; by apply fe_get_insert_ne|].
  split.
  - intros Hnone k. destruct (decide (getFeKey fd mask = k)) as [<-|Hne].
    + by rewrite fe_get_insert_eq.
    + by apply fe_get_insert_ne.
  - split; [apply lookup_insert_eq | apply dom_insert_L].
Qed.

Lemma X4_unregister_witness :
  fe_get (FileEvents (loop world_r5)) (getFeKey 9 AE_READABLE) = None
  ∧ fe_get (FileEvents (loop (AeDeleteFileEvent quiet 9 AE_READABLE world_r5)))
           (getFeKey 5 AE_READABLE)
    = fe_get (FileEvents (loop world_r5)) (getFeKey 5 AE_READABLE).
Proof.
  split; [reflexivity|].
  destruct (X4_unregister_in_the_registry quiet 9 AE_READABLE world_r5)
    as (_ & _ & Habsent & _).
  apply Habsent. reflexivity.
Defined.

(** ** The registry and the interest list *)



(** X6.  While the registry holds an entry for a descriptor that the
    interest list no longer has, the descriptor cannot be registered: the
    call is an EPOLL_CTL_MOD, the kernel refuses it, and the registry and
    the interest list stay as they are.  This is the state [X5] leaves a
    descriptor in that was registered for both directions. *)
Theorem X6_registration_refused_after_forgetting E fd mask proc cd w :
  interest w !! wrap32 fd = None →
  fe_get (FileEvents (loop w)) (getFeKey fd AE_READABLE) ≠ None
  ∨ fe_get (FileEvents (loop w)) (getFeKey fd AE_WRITABLE) ≠ None →
  let w' := AeCreateFileEvent E fd mask proc cd w in
  loop w' = loop w ∧ interest w' = interest w
  ∧ ctl_log w' = ctl_log w ++ [mkCtl EPOLL_CTL_MOD fd (ctl_event_for fd mask)].
Proof.
  intros Hgone Hreg. cbv zeta.
  unfold AeCreateFileEvent, create_op. rewrite bool_decide_eq_true_2 by done.
  unfold EpollCtl, kernel_epoll_ctl. rewrite Hgone.
  destruct (ctl_fault E (length (ctl_log w))); [done|].
  by case_bool_decide.
Qed.

Lemma X6_registration_refused_witness :
  interest world_rw5_less_w !! wrap32 5 = None
  ∧ fe_get (FileEvents (loop world_rw5_less_w)) (getFeKey 5 AE_READABLE) ≠ None
  ∧ loop (AeCreateFileEvent quiet 5 AE_WRITABLE 2%nat 20 world_rw5_less_w)
    = loop world_rw5_less_w.
Proof.
  assert (fe_get (FileEvents (loop world_rw5_less_w)) (getFeKey 5 AE_READABLE) ≠ None)
    as Hreg by (vm_compute; discriminate).
  split; [reflexivity|]. split; [exact Hreg|].
  destruct (X6_registration_refused_after_forgetting quiet 5 AE_WRITABLE 2%nat 20
              world_rw5_less_w eq_refl (or_introl Hreg)) as (Hloop & _).
  exact Hloop.
Defined.

(** ** Timer ids *)

Lemma register_timers_ids E reqs :
  ∀ w,
    min_int64 ≤ timeEventNextId (loop w) →
    timeEventNextId (loop w) + Z.of_nat (length reqs) ≤ max_int64 →
    fst (register_timers E reqs w)
    = seqZ (timeEventNextId (loop w)) (Z.of_nat (length reqs))
    ∧ timeEventNextId (loop (snd (register_timers E reqs w)))
      = timeEventNextId (loop w) + Z.of_nat (length reqs)
    ∧ length (TimeEventHead (loop (snd (register_timers E reqs w))))
      = (length reqs + length (TimeEventHead (loop w)))%nat.
Proof.
  induction reqs as [|r reqs IH]; intros w Hlo Hhi.
  - simpl. rewrite seqZ_nil by lia. split; [done|]. split; [lia | done].
  - cbn [register_timers].
    set (w1 := snd (AeCreateTimeEvent E (req_mask r) (req_duration r) (req_proc r)
                      (req_clientData r) w)).
    assert (AeCreateTimeEvent E (req_mask r) (req_duration r) (req_proc r)
              (req_clientData r) w = (timeEventNextId (loop w), w1)) as -> by done.
    assert (timeEventNextId (loop w1) = timeEventNextId (loop w) + 1) as Hnext.
    { simpl. unfold add64. rewrite wrap64_id; [done|].
      cbn [length] in Hhi. unfold int64. lia. }
    assert (length (TimeEventHead (loop w1)) = S (length (TimeEventHead (loop w))))
      as Hlen by done.
    cbn [length] in Hhi. destruct (IH w1) as (Hids & Hcnt & Hchain); [lia | lia |].
    destruct (register_timers E reqs w1) as [ids w2]. cbn [fst snd] in *.
    cbn [length]. rewrite seqZ_cons by lia.
    rewrite Hids, Hcnt, Hchain, Hnext, Hlen.
    split; [|split; lia]. f_equal. f_equal; lia.
Qed.

(** X7.  Timers registered one after the other get consecutive ids,
    starting from the loop's counter (1 on a new loop), as long as the
    counter stays an [int]: no id is handed out twice, and every call adds
    a node to the chain. *)
Theorem X7_timer_ids_count_up E reqs w :
  min_int64 ≤ timeEventNextId (loop w) →
  timeEventNextId (loop w) + Z.of_nat (length reqs) ≤ max_int64 →
  fst (register_timers E reqs w)
  = seqZ (timeEventNextId (loop w)) (Z.of_nat (length reqs))
  ∧ NoDup (fst (register_timers E reqs w))
  ∧ timeEventNextId (loop (snd (register_timers E reqs w)))
    = timeEventNextId (loop w) + Z.of_nat (length reqs)
  ∧ length (TimeEventHead (loop (snd (register_timers E reqs w))))
    = (length reqs + length (TimeEventHead (loop w)))%nat.
Proof.
  intros Hlo Hhi. destruct (register_timers_ids E reqs w Hlo Hhi) as (Hids & Hrest).
  split; [done|]. split; [|done]. rewrite Hids. apply NoDup_seqZ.
Qed.

Lemma X7_timer_ids_witness :
  fst (register_timers quiet
         [mkTimerRequest AE_ONCE 10 0%nat 0; mkTimerRequest AE_NORMAL 50 1%nat 0;
          mkTimerRequest AE_ONCE 0 2%nat 0] fresh_world)
  = [1; 2; 3].
Proof.
  destruct (X7_timer_ids_count_up quiet
              [mkTimerRequest AE_ONCE 10 0%nat 0; mkTimerRequest AE_NORMAL 50 1%nat 0;
               mkTimerRequest AE_ONCE 0 2%nat 0] fresh_world) as (Hids & _).
  - vm_compute. discriminate.
  - vm_compute. discriminate.
  - etrans; [exact Hids | reflexivity].
Defined.

Lemma newer_ids_NoDup h ls :
  StronglySorted (newer h) ls → NoDup (map (id_at h) ls).
Proof.
  induction 1 as [|l ls _ IH Hall]; simpl; constructor; [|done].
  intros Hin. apply list_elem_of_In, in_map_iff in Hin as (l' & Hid & Hin).
  rewrite Forall_forall in Hall. specialize (Hall l').
  unfold newer in Hall. apply list_elem_of_In in Hin. specialize (Hall Hin). lia.
Qed.

Lemma timers_ok_api_call E c w :
  timers_ok w → int64 (timeEventNextId (loop w) + 1) →
  timers_ok (snd (api_call E c w)).
Proof.
  intros Hok Hcnt. destruct c; simpl.
  - by apply timers_ok_AeCreateFileEvent.
  - by apply timers_ok_AeDeleteFileEvent.
  - by apply timers_ok_AeCreateTimeEvent.
  - by apply timers_ok_AeDeleteTimeEvent.
  - by apply (timers_ok_same w).
  - by apply (timers_ok_GetMsTime E).
Qed.

(** X8.  Every call of the loop's API keeps the timer list in shape while
    the id counter does not wrap around: the nodes of the chain are
    allocated, ids decrease from the head, and so no two timers in the
    chain have the same id. *)
Theorem X8_api_keeps_timer_ids_unique E c w :
  timers_ok w → int64 (timeEventNextId (loop w) + 1) →
  let w' := snd (api_call E c w) in
  timers_ok w'
  ∧ NoDup (map (id_at (heap w')) (TimeEventHead (loop w'))).
Proof.
  intros Hok Hcnt. cbv zeta.
  pose proof (timers_ok_api_call E c w Hok Hcnt) as Hok'.
  split; [done|]. apply newer_ids_NoDup. by destruct Hok'.
Qed.

Lemma X8_api_keeps_timer_ids_witness :
  timers_ok two_timers
  ∧ NoDup (map (id_at (heap (snd (api_call quiet (CallCreateTimeEvent AE_ONCE 5 0%nat 0)
                                      two_timers))))
               (TimeEventHead (loop (snd (api_call quiet
                                            (CallCreateTimeEvent AE_ONCE 5 0%nat 0)
                                            two_timers))))).
Proof.
  split; [apply two_timers_ok|].
  destruct (X8_api_keeps_timer_ids_unique quiet (CallCreateTimeEvent AE_ONCE 5 0%nat 0)
              two_timers two_timers_ok) as [_ Hnd].
  - vm_compute. split; discriminate.
  - exact Hnd.
Defined.

(** ** Unregistering timers *)

Lemma unlink_absent h id ls :
  (∀ l te, l ∈ ls → h !! l = Some te → te_id te ≠ id) →
  unlink h id ls = ls.
Proof.
  induction ls as [|l ls IH]; intros Hno; simpl; [done|].
  rewrite IH by (intros l' te' Hin; apply Hno; by right).
  destruct (h !! l) as [te|] eqn:Hl; [|done].
  rewrite bool_decide_eq_false_2; [done|]. apply (Hno l); [by left | done].
Qed.

Lemma filter_keep_all {A} (P : A → Prop) `{∀ x, Decision (P x)} (ls : list A) :
  Forall P ls → filter P ls = ls.
Proof.
  induction 1 as [|x ls Hx _ IH]; [done|].
  rewrite filter_cons_True by done. by rewrite IH.
Qed.

(** In a well-formed chain the scan for an id takes out every node with
    that id: there is at most one. *)
Lemma unlink_filter h id ls :
  Forall (λ l, is_Some (h !! l)) ls →
  StronglySorted (newer h) ls →
  unlink h id ls = filter (λ l, id_at h l ≠ id) ls.
Proof.
  intros Hall Hs. induction Hs as [|l ls Hs IH Hnewer]; simpl; [done|].
  apply Forall_cons in Hall as [[te Hl] Hall]. rewrite Hl.
  case_bool_decide as Hid.
  - rewrite filter_cons_False by (unfold id_at; rewrite Hl; naive_solver).
    symmetry. apply filter_keep_all.
    eapply Forall_impl; [exact Hnewer|]. intros l'. unfold newer.
    unfold id_at at 2. rewrite Hl. lia.
  - rewrite filter_cons_True by (unfold id_at; by rewrite Hl).
    by rewrite IH.
Qed.

(** X9.  Unregistering a timer right after registering it, by the id the
    registration returned, gives back the chain as it was; the node itself
    stays allocated, so a slice that holds it can still reach it. *)
Theorem X9_register_then_unregister_timer E mask dur proc cd w :
  let id := fst (AeCreateTimeEvent E mask dur proc cd w) in
  let w1 := snd (AeCreateTimeEvent E mask dur proc cd w) in
  let w2 := AeDeleteTimeEvent id w1 in
  TimeEventHead (loop w2) = TimeEventHead (loop w)
  ∧ FileEvents (loop w2) = FileEvents (loop w)
  ∧ heap w2 !! alloc (heap w)
    = Some (mkTimeEvent id mask (add64 (fst (GetMsTime E w)) dur) dur proc cd).
Proof.
  cbv zeta. simpl. rewrite lookup_insert_eq. simpl.
  by rewrite bool_decide_eq_true_2.
Qed.

Lemma AeDeleteTimeEvent_absent id w :
  (∀ l te, l ∈ TimeEventHead (loop w) → heap w !! l = Some te → te_id te ≠ id) →
  AeDeleteTimeEvent id w = w.
Proof.
  intros Hno. unfold AeDeleteTimeEvent, set_loop, set_TimeEventHead.
  rewrite unlink_absent by done. by destruct w as [[] ? ? ? ? ? ?].
Qed.

(** X10.  Unregistering an id that no timer in the chain has changes
    nothing at all. *)
Theorem X10_unregister_unknown_timer id w :
  (∀ l te, l ∈ TimeEventHead (loop w) → heap w !! l = Some te → te_id te ≠ id) →
  AeDeleteTimeEvent id w = w.
Proof. apply AeDeleteTimeEvent_absent. Qed.

Lemma X10_unregister_unknown_witness :
  AeDeleteTimeEvent 99 two_timers = two_timers.
Proof.
  apply (X10_unregister_unknown_timer 99 two_timers).
  intros l te Hin Hl.
  assert (l = 1%nat ∨ l = 0%nat) as [-> | ->].
  { change (TimeEventHead (loop two_timers)) with [1%nat; 0%nat] in Hin.
    apply elem_of_cons in Hin as [->|Hin]; [by left|].
    apply list_elem_of_singleton in Hin as ->. by right. }
  - change (heap two_timers !! 1%nat)
      with (Some (mkTimeEvent 2 AE_NORMAL 1060 50 2%nat 20)) in Hl.
    injection Hl as <-. discriminate.
  - change (heap two_timers !! 0%nat)
      with (Some (mkTimeEvent 1 AE_ONCE 1000 0 1%nat 10)) in Hl.
    injection Hl as <-. discriminate.
Defined.

(** X11.  In a well-formed timer list [AeDeleteTimeEvent] removes the timer
    with the given id and nothing else: the chain that is left is the old
    one without that timer, in the old order; no timer with the id
    remains; and unregistering the id a second time changes nothing. *)
Theorem X11_unregister_timer_exactly id w :
  timers_ok w →
  let w' := AeDeleteTimeEvent id w in
  TimeEventHead (loop w')
  = filter (λ l, id_at (heap w) l ≠ id) (TimeEventHead (loop w))
  ∧ Forall (λ l, id_at (heap w') l ≠ id) (TimeEventHead (loop w'))
  ∧ heap w' = heap w
  ∧ AeDeleteTimeEvent id w' = w'.
Proof.
  intros [Ha Hb Hi Hs]. cbv zeta.
  assert (TimeEventHead (loop (AeDeleteTimeEvent id w))
          = filter (λ l, id_at (heap w) l ≠ id) (TimeEventHead (loop w))) as Hchain.
  { simpl. by apply unlink_filter. }
  assert (Forall (λ l, id_at (heap w) l ≠ id)
                 (TimeEventHead (loop (AeDeleteTimeEvent id w)))) as Hnone.
  { rewrite Hchain. apply Forall_forall. intros l Hin.
    by apply list_elem_of_filter in Hin as [Hne _]. }
  split; [done|]. split; [done|]. split; [done|].
  apply AeDeleteTimeEvent_absent.
  intros l te Hin Hl. rewrite Forall_forall in Hnone. specialize (Hnone l Hin).
  unfold id_at in Hnone. simpl in Hl. by rewrite Hl in Hnone.
Qed.

Lemma X11_unregister_timer_witness :
  timers_ok two_timers
  ∧ TimeEventHead (loop (AeDeleteTimeEvent 1 two_timers)) = [1%nat]
  ∧ AeDeleteTimeEvent 1 (AeDeleteTimeEvent 1 two_timers)
    = AeDeleteTimeEvent 1 two_timers.
Proof.
  split; [apply two_timers_ok|].
  destruct (X11_unregister_timer_exactly 1 two_timers two_timers_ok)
    as (Hchain & _ & _ & Hagain).
  split; [|exact Hagain]. etrans; [exact Hchain | reflexivity].
Defined.

(** ** The nearest deadline, timer by timer *)

Lemma foldr_min_elem c ds d : d ∈ ds → foldr Z.min c ds ≤ d.
Proof.
  induction ds as [|d0 ds IH]; intros Hin; [by apply elem_of_nil in Hin|].
  simpl. apply elem_of_cons in Hin as [->|Hin]; [lia|].
  specialize (IH Hin). lia.
Qed.

Lemma foldr_min_attained c ds : foldr Z.min c ds = c ∨ foldr Z.min c ds ∈ ds.
Proof.
  induction ds as [|d ds IH]; simpl; [by left|].
  destruct (Z.min_spec d (foldr Z.min c ds)) as [[_ ->]|[_ ->]].
  - right. by left.
  - destruct IH as [IH|IH]; [by left|]. right. by right.
Qed.

(** X12.  [nearestTime] is never later than the deadline of a timer in the
    chain, so the loop does not plan to sleep past a deadline; and it is
    either the clock reading plus 1000 or the deadline of one of the
    timers. *)
Theorem X12_nearest_not_after_any_deadline E w :
  (∀ l te, l ∈ TimeEventHead (loop w) → heap w !! l = Some te →
           fst (nearestTime E w) ≤ when te)
  ∧ (fst (nearestTime E w) = add64 (fst (GetMsTime E w)) 1000
     ∨ ∃ l te, l ∈ TimeEventHead (loop w) ∧ heap w !! l = Some te
               ∧ fst (nearestTime E w) = when te).
Proof.
  rewrite nearestTime_value. unfold GetMsTime. cbn [fst]. split.
  - intros l te Hin Hl. apply foldr_min_elem. unfold deadlines.
    apply list_elem_of_omap. exists l. split; [done|]. by rewrite Hl.
  - destruct (foldr_min_attained (add64 (wrap64 (wall E (ticks w))) 1000)
                (deadlines w)) as [Hcap|Hin]; [by left|].
    right. unfold deadlines in Hin at 2.
    apply list_elem_of_omap in Hin as (l & Hl & Hwhen).
    destruct (heap w !! l) as [te|] eqn:Hte; [|done].
    exists l, te. split; [done|]. split; [done|]. by injection Hwhen as <-.
Qed.

Lemma X12_nearest_witness :
  fst (nearestTime quiet two_timers) ≤ 1000.
Proof.
  destruct (X12_nearest_not_after_any_deadline quiet two_timers) as [Hle _].
  apply (Hle 0%nat (mkTimeEvent 1 AE_ONCE 1000 0 1%nat 10)).
  - change (TimeEventHead (loop two_timers)) with [1%nat; 0%nat].
    apply elem_of_cons. right. apply list_elem_of_singleton. reflexivity.
  - reflexivity.
Defined.

(** ** The waiter *)

(** X13.  The timeout [AeWait] hands to [EpollWait] is always positive (a
    difference of zero or less becomes 10ms), and it is at most 1000ms
    when the clock did not step back between the reading in [nearestTime]
    and the next one and the difference of deadline and clock fits an
    [int64]. *)
Theorem X13_wait_timeout_positive_and_capped E w :
  let now := wrap64 (wall E (ticks w)) in
  let now0 := wrap64 (wall E (S (ticks w))) in
  let nearest := fst (nearestTime E w) in
  ∃ timeout,
    wait_log (snd (AeWait E w)) = wait_log w ++ [timeout]
    ∧ timeout = (if bool_decide (sub64 nearest now0 ≤ 0) then 10
                 else sub64 nearest now0)
    ∧ 0 < timeout
    ∧ (now ≤ now0 → min_int64 ≤ nearest - now0 → timeout ≤ 1000).
Proof. apply AeWait_timeout. Qed.

Lemma X13_wait_timeout_witness :
  ∃ timeout,
    wait_log (snd (AeWait quiet two_timers)) = wait_log two_timers ++ [timeout]
    ∧ 0 < timeout ∧ timeout ≤ 1000.
Proof.
  destruct (X13_wait_timeout_positive_and_capped quiet two_timers)
    as (timeout & Hlog & _ & Hpos & Hcap).
  exists timeout. split; [exact Hlog|]. split; [exact Hpos|].
  apply Hcap; vm_compute; discriminate.
Defined.

Lemma AeWait_ok_world E w evs :
  ready E (length (wait_log w)) = Some evs →
  let w1 := snd (AeWait E w) in
  loop w1 = loop w ∧ heap w1 = heap w ∧ fired w1 = fired w
  ∧ interest w1 = interest w ∧ ctl_log w1 = ctl_log w
  ∧ ticks w1 = S (S (S (ticks w))).
Proof.
  intros Hr. cbv zeta. unfold AeWait, nearestTime, EpollWait, GetMsTime. simpl.
  by rewrite Hr.
Qed.

(** X14.  When the poll succeeds, the timers [AeWait] reports due are the
    timers of the chain whose deadline lies strictly before the clock
    reading taken after the poll (the third of the call): a timer whose
    deadline is that very millisecond waits for a later turn.  The call
    itself changes nothing in the loop, the timer nodes or the interest
    list and invokes no callback. *)
Theorem X14_due_means_strictly_past E w evs :
  ready E (length (wait_log w)) = Some evs →
  let tes := fst (fst (fst (AeWait E w))) in
  let w1 := snd (AeWait E w) in
  let now := wrap64 (wall E (S (S (ticks w)))) in
  (∀ l, l ∈ tes ↔
        l ∈ TimeEventHead (loop w) ∧ ∃ te, heap w !! l = Some te ∧ when te < now)
  ∧ loop w1 = loop w ∧ heap w1 = heap w ∧ fired w1 = fired w
  ∧ interest w1 = interest w ∧ ctl_log w1 = ctl_log w
  ∧ ticks w1 = S (S (S (ticks w))).
Proof.
  intros Hr. cbv zeta. split; [|by apply AeWait_ok_world with evs].
  destruct (AeWait_ok E w evs Hr) as (w1 & -> & _). cbn [fst].
  intros l. rewrite list_elem_of_In, filter_In, <- list_elem_of_In.
  unfold due. split.
  - intros [Hin Hdue]. split; [done|].
    destruct (heap w !! l) as [te|]; [|done].
    exists te. split; [done|]. by apply bool_decide_eq_true in Hdue.
  - intros [Hin (te & -> & Hlt)]. split; [done|]. by apply bool_decide_eq_true.
Qed.

Lemma X14_due_witness :
  fst (fst (fst (AeWait frozen
                   (snd (AeCreateTimeEvent frozen AE_ONCE 0 0%nat 0 fresh_world)))))
  = []
  ∧ ¬ (0%nat ∈ fst (fst (fst (AeWait frozen
                   (snd (AeCreateTimeEvent frozen AE_ONCE 0 0%nat 0 fresh_world)))))).
Proof.
  split; [reflexivity|].
  destruct (X14_due_means_strictly_past frozen
              (snd (AeCreateTimeEvent frozen AE_ONCE 0 0%nat 0 fresh_world)) []
              eq_refl) as [Hdue _].
  intros Hin. apply Hdue in Hin as (_ & te & Hte & Hlt).
  change (Some (mkTimeEvent 1 AE_ONCE 1000 0 0%nat 0) = Some te) in Hte.
  injection Hte as <-. vm_compute in Hlt. discriminate.
Defined.

Lemma collect_file_event_length m e : (length (collect_file_event m e) ≤ 1)%nat.
Proof. unfold collect_file_event. repeat case_match; simpl; lia. Qed.

Lemma concat_length_le {A B} (f : A → list B) (ls : list A) :
  (∀ x, (length (f x) ≤ 1)%nat) → (length (concat (map f ls)) ≤ length ls)%nat.
Proof.
  intros Hf. induction ls as [|x ls IH]; simpl; [lia|].
  rewrite length_app. specialize (Hf x). lia.
Qed.

Lemma filled_length evs : (length (filled evs) ≤ 128)%nat.
Proof. unfold filled. rewrite length_map, length_take. lia. Qed.

(** X15.  One call of [AeWait] reports at most 128 ready file events, the
    size of its buffer: every entry the kernel filled in contributes one
    event or none. *)
Theorem X15_at_most_128_file_events E w :
  (length (snd (fst (fst (AeWait E w)))) ≤ 128)%nat.
Proof.
  destruct (ready E (length (wait_log w))) as [evs|] eqn:Hr.
  - destruct (AeWait_ok E w evs Hr) as (w1 & -> & _). cbn [fst snd].
    pose proof (concat_length_le (collect_file_event (FileEvents (loop w)))
                  (filled evs) (collect_file_event_length _)).
    pose proof (filled_length evs). lia.
  - destruct (AeWait_error E w Hr) as (w1 & -> & _). simpl. lia.
Qed.

Lemma land_uint32 x m : 0 ≤ m < 2 ^ 32 → Z.land (uint32 x) m = Z.land x m.
Proof.
  intros Hm. unfold uint32. rewrite <- Z.land_ones by lia.
  rewrite <- Z.land_assoc. f_equal.
  rewrite Z.land_comm, Z.land_ones by lia. apply Z.mod_small. lia.
Qed.

(** X16.  An entry of the ready list that has neither the readable nor the
    writable flag (an error or a hang-up reported alone) is dropped: when
    all entries are of that kind, [AeWait] reports no file event, whatever
    is registered. *)
Theorem X16_entries_without_readiness_dropped E w evs :
  ready E (length (wait_log w)) = Some evs →
  Forall (λ e, Z.land (Events e) EPOLLIN = 0 ∧ Z.land (Events e) EPOLLOUT = 0) evs →
  snd (fst (fst (AeWait E w))) = [].
Proof.
  intros Hr Hall. destruct (AeWait_ok E w evs Hr) as (w1 & -> & _). cbn [fst snd].
  unfold filled.
  assert (Forall (λ e, Z.land (Events e) EPOLLIN = 0 ∧ Z.land (Events e) EPOLLOUT = 0)
                 (take 128 evs)) as Hall'.
  { apply Forall_forall. intros e He. rewrite Forall_forall in Hall.
    apply Hall. eapply elem_of_sublist; [exact He | apply sublist_take]. }
  clear Hall. induction Hall' as [|e es [Hin Hout] _ IH]; [done|].
  simpl. rewrite IH, app_nil_r. unfold collect_file_event. simpl.
  rewrite !land_uint32 by (unfold EPOLLIN, EPOLLOUT; lia).
  by rewrite !bool_decide_eq_false_2 by (by intros ?).
Qed.

Lemma X16_entries_dropped_witness :
  snd (fst (fst (AeWait hangup_only world_rw5))) = []
  ∧ fired (AeMain_body hangup_only world_rw5) = [].
Proof.
  split; [|reflexivity].
  apply (X16_entries_without_readiness_dropped hangup_only world_rw5
           [mkEpollEvent EPOLLHUP 5]).
  - reflexivity.
  - constructor; [|constructor]. split; reflexivity.
Defined.

(** ** The dispatcher and the turn *)

(** X17.  [AeProcessEvents] invokes the callbacks of all timers of its
    first slice, in the order of the slice, before the callback of any file
    event of its second slice, and those in the order of the slice; each
    element of a slice is invoked once, and nothing else is invoked,
    whatever the callbacks do to the loop. *)
Theorem X17_timers_before_file_events E tes fes w :
  Forall (λ l, is_Some (heap w !! l)) tes →
  fired (AeProcessEvents E tes fes w)
  = fired w ++ flat_map (firing_of (heap w)) tes ++ map FiredFile fes.
Proof. apply AeProcessEvents_fired. Qed.

Lemma X17_timers_before_file_events_witness :
  fired (AeProcessEvents cancelling [1%nat; 0%nat]
           [mkFileEvent 5 AE_READABLE 2%nat 0] cancel_world)
  = [FiredTime 1%nat 2; FiredTime 0%nat 1; FiredFile (mkFileEvent 5 AE_READABLE 2%nat 0)].
Proof.
  etrans.
  - apply (X17_timers_before_file_events cancelling [1%nat; 0%nat]
             [mkFileEvent 5 AE_READABLE 2%nat 0] cancel_world).
    repeat constructor; eexists; reflexivity.
  - reflexivity.
Defined.

Lemma process_file_event_heap E fe w :
  heap_extends (heap w) (heap (process_file_event E fe w)).
Proof.
  unfold process_file_event, call_fileProc.
  eapply heap_extends_trans;
    [|apply (frame_heap _ _ (frame_AeDeleteFileEvent E _ _ _))].
  apply (frame_heap _ _ (frame_run_script E _ (log_fired (FiredFile fe) w))).
Qed.

Lemma process_file_events_frame E fes w :
  let w' := fold_left (λ w fe, process_file_event E fe w) fes w in
  heap_extends (heap w) (heap w')
  ∧ (keys_ok (FileEvents (loop w)) → keys_ok (FileEvents (loop w'))).
Proof.
  revert w. induction fes as [|fe fes IH]; intros w; simpl.
  - split; [apply heap_extends_refl | done].
  - destruct (IH (process_file_event E fe w)) as [Hh Hk]. split.
    + eapply heap_extends_trans; [apply process_file_event_heap | exact Hh].
    + intros Hkeys. by apply Hk, process_file_event_keys.
Qed.

Lemma AeMain_body_frame E w :
  heap_extends (heap w) (heap (AeMain_body E w))
  ∧ (keys_ok (FileEvents (loop w)) → keys_ok (FileEvents (loop (AeMain_body E w)))).
Proof.
  destruct (AeWait_snapshot E w)
    as (tes & fes & err & w1 & Hw & Hl & Hh & Hf & Htes & Hfes).
  unfold AeMain_body. rewrite Hw.
  set (w2 := if err then set_loop (set_stop true) w1 else w1).
  assert (heap w2 = heap w) as Hh2 by (unfold w2; by destruct err).
  assert (FileEvents (loop w2) = FileEvents (loop w)) as Hm2
    by (unfold w2; destruct err; simpl; by rewrite Hl).
  assert (Forall (λ l, is_Some (heap w2 !! l)) tes) as Hall.
  { eapply Forall_impl; [exact Htes|]. intros l [_ Hsome]. by rewrite Hh2. }
  unfold AeProcessEvents.
  destruct (process_time_events_fired E tes w2 Hall) as (_ & Hht & Hkt).
  destruct (process_file_events_frame E fes
              (fold_left (λ w te, process_time_event E te w) tes w2)) as [Hhf Hkf].
  rewrite Hh2 in Hht. rewrite Hm2 in Hkt. split.
  - by eapply heap_extends_trans.
  - auto.
Qed.

(** X18.  A turn of the loop, with everything its callbacks do, never frees
    a timer node and never changes a node's id, kind, interval, callback or
    client data (only [when] is rewritten), and it keeps every registry
    entry under the key of its own descriptor and direction. *)
Theorem X18_turn_keeps_nodes_and_keys E w :
  heap_extends (heap w) (heap (AeMain_body E w))
  ∧ (keys_ok (FileEvents (loop w)) → keys_ok (FileEvents (loop (AeMain_body E w)))).
Proof. apply AeMain_body_frame. Qed.

Lemma X18_turn_keeps_witness :
  keys_ok (FileEvents (loop cancel_world))
  ∧ keys_ok (FileEvents (loop (AeMain_body cancelling cancel_world))).
Proof.
  split; [apply cancel_world_keys_ok|].
  destruct (X18_turn_keeps_nodes_and_keys cancelling cancel_world) as [_ Hk].
  exact (Hk cancel_world_keys_ok).
Defined.

(** X19.  The registration and unregistration calls never invoke a
    callback themselves: whatever sequence of them a callback makes, the
    callbacks invoked so far stay the same, no timer node is freed or
    re-identified, and registry entries stay under their own keys. *)
Theorem X19_api_calls_invoke_nothing E s w :
  let w' := run_script E s w in
  fired w' = fired w
  ∧ heap_extends (heap w) (heap w')
  ∧ (keys_ok (FileEvents (loop w)) → keys_ok (FileEvents (loop w'))).
Proof. cbv zeta. by destruct (frame_run_script E s w). Qed.

Lemma X19_api_calls_witness :
  keys_ok (FileEvents (loop world_r5))
  ∧ keys_ok (FileEvents (loop (run_script insistent (procs insistent 1%nat 5 10)
                                 world_r5))).
Proof.
  split; [apply world_r5_keys_ok|].
  destruct (X19_api_calls_invoke_nothing insistent (procs insistent 1%nat 5 10)
              world_r5) as (_ & _ & Hk).
  exact (Hk world_r5_keys_ok).
Defined.

(** ** The driver, turn by turn *)

Lemma AeMain_loop_turns E fuel :
  ∀ w w',
    AeMain_loop E fuel w = Some w' ↔
    ∃ n, (n ≤ fuel)%nat ∧ w' = turns E n w ∧ stop (loop (turns E n w)) = true
         ∧ ∀ k, (k < n)%nat → stop (loop (turns E k w)) = false.
Proof.
  induction fuel as [|fuel IH]; intros w w'; cbn [AeMain_loop].
  - destruct (stop (loop w)) eqn:Hs; split.
    + intros [= <-]. exists 0%nat. split; [lia|]. split; [done|].
      split; [done|]. intros k Hk. lia.
    + intros (n & Hn & -> & _). assert (n = 0%nat) as -> by lia. done.
    + done.
    + intros (n & Hn & -> & Hstop & _). assert (n = 0%nat) as -> by lia.
      simpl in Hstop. congruence.
  - destruct (stop (loop w)) eqn:Hs; split.
    + intros [= <-]. exists 0%nat. split; [lia|]. split; [done|].
      split; [done|]. intros k Hk. lia.
    + intros (n & Hn & -> & Hstop & Hrun). destruct n as [|n]; [done|].
      assert (stop (loop (turns E 0 w)) = false) as H0 by (apply Hrun; lia).
      simpl in H0. congruence.
    + intros Hloop. apply IH in Hloop as (n & Hn & -> & Hstop & Hrun).
      exists (S n). split; [lia|]. split; [done|]. split; [done|].
      intros [|k] Hk; [done|]. simpl. apply Hrun. lia.
    + intros (n & Hn & -> & Hstop & Hrun). destruct n as [|n].
      { simpl in Hstop. congruence. }
      simpl. apply IH. exists n. split; [lia|]. split; [done|]. split; [done|].
      intros k Hk. apply (Hrun (S k)). lia.
Qed.

(** X20.  [AeMain] clears the stop flag and then runs whole turns: it
    returns exactly when some turn ends with the stop flag set, after the
    first such turn and with the state that turn left, the flag still set.
    At least one turn is run, and a stop requested during a turn takes
    effect only when the turn is over. *)
Theorem X20_run_returns_after_first_stopped_turn E fuel w w' :
  AeMain E fuel w = Some w' ↔
  ∃ n, (0 < n ≤ fuel)%nat
       ∧ w' = turns E n (set_loop (set_stop false) w)
       ∧ stop (loop w') = true
       ∧ ∀ k, (k < n)%nat →
              stop (loop (turns E k (set_loop (set_stop false) w))) = false.
Proof.
  unfold AeMain. rewrite AeMain_loop_turns. split.
  - intros (n & Hn & -> & Hstop & Hrun). exists n.
    split; [|by repeat split]. split; [|done].
    destruct n; [simpl in Hstop; discriminate | lia].
  - intros (n & Hn & -> & Hstop & Hrun). exists n. split; [lia|]. by repeat split.
Qed.

Lemma X20_run_returns_witness :
  AeMain failing_wait 5 world_timer_r5
  = Some (turns failing_wait 1 (set_loop (set_stop false) world_timer_r5)).
Proof.
  apply (X20_run_returns_after_first_stopped_turn failing_wait 5 world_timer_r5).
  exists 1%nat. split; [lia|]. split; [reflexivity|]. split; [reflexivity|].
  intros k Hk. assert (k = 0%nat) as -> by lia. reflexivity.
Defined.

(** ** The chain as the code stores it *)

(** X21.  On an acyclic chain the loop of [AeDeleteTimeEvent] stops within
    as many steps as the chain has nodes, and the pointers it leaves
    ([TimeEventHead] or the [next] of the previous node redirected, the
    [next] of the removed node nil) link exactly the nodes of [unlink]: the
    chain without its first node of the given id.  Linking a fresh node in
    front, as [AeCreateTimeEvent] does, gives the chain with that node as
    head. *)
Theorem X21_pointer_surgery_is_list_surgery h id nx head ls fuel l :
  lseg nx head None ls → NoDup ls → (length ls ≤ fuel)%nat → l ∉ ls →
  lseg (fst (ptr_delete fuel h id nx head None head))
       (snd (ptr_delete fuel h id nx head None head)) None (unlink h id ls)
  ∧ lseg (fst (ptr_push nx head l)) (snd (ptr_push nx head l)) None (l :: ls).
Proof.
  intros Hseg Hnd Hfuel Hl. split.
  - pose proof (ptr_delete_refines h id nx head ls fuel Hseg Hnd Hfuel) as H.
    by destruct (ptr_delete fuel h id nx head None head).
  - apply (ptr_push_refines nx head ls l Hl Hseg).
Qed.

Lemma X21_pointer_surgery_witness :
  let nx : gmap loc (option loc) := <[1%nat := Some 0%nat]> (<[0%nat := None]> ∅) in
  ptr_delete 2 (heap two_timers) 1 nx (Some 1%nat) None (Some 1%nat)
  = (<[0%nat := None]> (<[1%nat := None]> nx), Some 1%nat)
  ∧ lseg (<[0%nat := None]> (<[1%nat := None]> nx)) (Some 1%nat) None
         (unlink (heap two_timers) 1 [1%nat; 0%nat]).
Proof.
  intros nx. split; [reflexivity|].
  destruct (X21_pointer_surgery_is_list_surgery (heap two_timers) 1 nx
              (Some 1%nat) [1%nat; 0%nat] 2 2%nat) as [Hdel _].
  - simpl. split; [reflexivity|]. exists (Some 0%nat). split; [reflexivity|].
    split; [reflexivity|]. exists None. split; reflexivity.
  - apply NoDup_cons. split.
    + intros Hin. apply list_elem_of_singleton in Hin. discriminate.
    + apply NoDup_singleton.
  - simpl. lia.
  - intros Hin. apply elem_of_cons in Hin as [Hin|Hin]; [discriminate|].
    apply list_elem_of_singleton in Hin. discriminate.
  - exact Hdel.
Defined.

(** ** What a turn delivers *)

Lemma AeMain_body_fired_ok E w evs :
  ready E (length (wait_log w)) = Some evs →
  fired (AeMain_body E w)
  = fired w
    ++ flat_map (firing_of (heap w))
         (List.filter (due (heap w) (wrap64 (wall E (S (S (ticks w))))))
                      (TimeEventHead (loop w)))
    ++ map FiredFile
         (concat (map (collect_file_event (FileEvents (loop w))) (filled evs))).
Proof.
  intros Hr. destruct (AeWait_ok E w evs Hr) as (w1 & Hw & Hl & Hh & Hf & _).
  unfold AeMain_body. rewrite Hw. rewrite AeProcessEvents_fired.
  - by rewrite Hf, Hh.
  - rewrite Hh. apply Forall_forall. intros l Hin.
    apply list_elem_of_In, filter_In in Hin as [_ Hdue].
    unfold due in Hdue. by destruct (heap w !! l).
Qed.

(** X22.  When the poll succeeds, every entry the kernel filled in whose
    flags select a key of the registry that holds an event (the Readable
    key if the readable flag is set, else the Writable key if the writable
    flag is set) has that event's callback invoked in the same turn. *)
Theorem X22_ready_registered_file_event_fires E w evs e fe :
  ready E (length (wait_log w)) = Some evs →
  e ∈ filled evs →
  (Z.land (Events e) EPOLLIN ≠ 0
   ∧ fe_get (FileEvents (loop w)) (getFeKey (Fd e) AE_READABLE) = Some fe)
  ∨ (Z.land (Events e) EPOLLIN = 0 ∧ Z.land (Events e) EPOLLOUT ≠ 0
     ∧ fe_get (FileEvents (loop w)) (getFeKey (Fd e) AE_WRITABLE) = Some fe) →
  FiredFile fe ∈ fired (AeMain_body E w).
Proof.
  intros Hr He Hreg. rewrite (AeMain_body_fired_ok E w evs Hr).
  apply elem_of_app. right. apply elem_of_app. right.
  apply list_elem_of_In, in_map, in_concat.
  exists (collect_file_event (FileEvents (loop w)) e). split.
  - apply in_map. by apply list_elem_of_In.
  - unfold collect_file_event.
    destruct Hreg as [[Hin ->]|(Hin & Hout & ->)].
    + rewrite bool_decide_eq_true_2 by done. by left.
    + rewrite bool_decide_eq_false_2 by (by intros ?).
      rewrite bool_decide_eq_true_2 by done. by left.
Qed.

Lemma X22_ready_registered_witness :
  FiredFile (mkFileEvent 5 AE_READABLE 1%nat 10)
  ∈ fired (AeMain_body insistent world_r5).
Proof.
  apply (X22_ready_registered_file_event_fires insistent world_r5
           [mkEpollEvent EPOLLIN 5] (mkEpollEvent EPOLLIN 5)).
  - reflexivity.
  - change (filled [mkEpollEvent EPOLLIN 5]) with [mkEpollEvent EPOLLIN 5].
    apply list_elem_of_singleton. reflexivity.
  - left. split; [discriminate | reflexivity].
Defined.

(** X23.  When the poll succeeds, every timer of the chain whose deadline
    lies before the clock reading taken after the poll has its callback
    invoked in that turn, with its id, even if a callback invoked earlier
    in the turn unregistered it. *)
Theorem X23_due_timer_fires E w evs l te :
  ready E (length (wait_log w)) = Some evs →
  l ∈ TimeEventHead (loop w) →
  heap w !! l = Some te →
  when te < wrap64 (wall E (S (S (ticks w)))) →
  FiredTime l (te_id te) ∈ fired (AeMain_body E w).
Proof.
  intros Hr Hin Hl Hlt. rewrite (AeMain_body_fired_ok E w evs Hr).
  apply elem_of_app. right. apply elem_of_app. left.
  apply list_elem_of_In, in_flat_map. exists l. split.
  - apply filter_In. split; [by apply list_elem_of_In|].
    unfold due. rewrite Hl. by apply bool_decide_eq_true.
  - unfold firing_of. rewrite Hl. by left.
Qed.

Lemma X23_due_timer_witness :
  FiredTime 0%nat 1 ∈ fired (AeMain_body cancelling cancel_world).
Proof.
  apply (X23_due_timer_fires cancelling cancel_world
           [mkEpollEvent EPOLLIN 5; mkEpollEvent EPOLLIN 6] 0%nat
           (mkTimeEvent 1 AE_ONCE 1000 0 0%nat 0)).
  - reflexivity.
  - change (TimeEventHead (loop cancel_world)) with [1%nat; 0%nat].
    apply elem_of_cons. right. apply list_elem_of_singleton. reflexivity.
  - reflexivity.
  - vm_compute. reflexivity.
Defined.
